(** * Point set smoothing and the normal estimation test driver

    A shallow embedding of

    - [Point_set_processing_3/include/CGAL/pca_smooth_point_set.h]
      ([CGALi::pca_smooth_point] and [pca_smooth_point_set]), and
    - [Surface_reconstruction_3/test/Surface_reconstruction_3/normal_estimation_test.cpp]
      (the checks of [main] and the driver loop),

    together with the properties the specification states about them. *)

From Stdlib Require Import ZArith QArith Qabs Lqa String Ascii Bool Lia.
From stdpp Require Import base list.

Local Open Scope Z_scope.

(** ** Machine integers

    [k] is an [unsigned int]; its arithmetic wraps around at [2^32]. *)

Definition UINT_MAX : Z := 2 ^ 32 - 1.

Definition is_uint (k : Z) : Prop := 0 <= k <= UINT_MAX.

Definition uint_add (a b : Z) : Z := (a + b) mod 2 ^ 32.

(** ** The geometric traits class

    [pca_smooth_point] and [pca_smooth_point_set] are templates over a
    [Kernel]; the class lists what they use of it. *)

Class Kernel := {
  Point_3 : Type;
  Plane_3 : Type;
  (** [has_smaller_distance_to_point q a b]: [a] is strictly closer to [q] than [b]. *)
  has_smaller_distance_to_point : Point_3 -> Point_3 -> Point_3 -> bool;
  (** [linear_least_squares_fitting_3(first, beyond, plane, Dimension_tag<0>())]:
      the plane fitted by point-based PCA. *)
  linear_least_squares_fitting_3 : list Point_3 -> Plane_3;
  (** [plane.projection(query)]: orthogonal projection onto the plane. *)
  projection : Plane_3 -> Point_3 -> Point_3
}.

(** Which precondition of the header fired. *)
Inductive precondition : Set :=
  | Pre_first_ne_beyond      (* line 142: first != beyond *)
  | Pre_k_ge_2               (* line 145: k >= 2 *)
  | Pre_points_size_ge_1.    (* line 84: points.size() >= 1 *)

(** Modelled from the spec: [CGAL_point_set_processing_precondition]
    ([point_set_processing_assertions.h] is not among the sources).  A
    precondition that does not hold ends the call ("fatal for the whole
    call"); the result records which one. *)
Inductive result (A : Type) : Type :=
  | Done (a : A)
  | Precondition_failed (p : precondition).

Arguments Done {A} a.
Arguments Precondition_failed {A} p.

Module Smooth.

Section WithKernel.

Context {K : Kernel}.

(** *** The neighbour search

    Modelled from the spec: the KD-tree ([Neighbor_search::Tree]) and
    [Orthogonal_k_neighbor_search] are external collaborators, not among
    the sources.  The tree holds its own copies of the points it is built
    from; a query yields "up to count nearest points, nearest first", and
    fewer than [count] only when the cloud is smaller than that. *)
Definition Tree : Type := list Point_3.

Fixpoint insert_by_distance (q p : Point_3) (sorted : list Point_3) : list Point_3 :=
  match sorted with
  | [] => [p]
  | x :: xs =>
      if has_smaller_distance_to_point q x p
      then x :: insert_by_distance q p xs
      else p :: x :: xs
  end.

Definition nearest_first (q : Point_3) (tree : Tree) : list Point_3 :=
  foldr (insert_by_distance q) [] tree.

Definition Neighbor_search (tree : Tree) (query : Point_3) (count : Z) : list Point_3 :=
  take (Z.to_nat count) (nearest_first query tree).

(** *** [CGALi::pca_smooth_point] *)

(** The loop of lines 77-83: [n] iterations are left, [search_iterator]
    is what the search still has to yield, [points] the vector filled so
    far. *)
Fixpoint gather (n : nat) (search_iterator points : list Point_3) : list Point_3 :=
  match n with
  | O => points
  | S n' =>
      match search_iterator with
      | [] => points (* premature ending *)
      | p :: rest => gather n' rest (points ++ [p])
      end
  end.

Definition gather_neighbors (query : Point_3) (tree : Tree) (k : Z) : list Point_3 :=
  gather (Z.to_nat (uint_add k 1)) (Neighbor_search tree query (uint_add k 1)) [].

Definition pca_smooth_point (query : Point_3) (tree : Tree) (k : Z) : result Point_3 :=
  let points := gather_neighbors query tree k in
  if (1 <=? length points)%nat
  then Done (projection (linear_least_squares_fitting_3 points) query)
  else Precondition_failed Pre_points_size_ge_1.

(** *** [pca_smooth_point_set] *)

(** An element of the range: the position that [get(point_pmap, it)]
    refers to, and whatever else the element carries (a normal, an
    index, ...), which the cast to [Point&] leaves out of reach. *)
Record Element (A : Type) : Type := {
  position : Point_3;
  attributes : A
}.

Arguments position {A} e.
Arguments attributes {A} e.
Arguments Build_Element {A} position attributes.

Section Range.

Context {A : Type}.

Definition set_position (e : Element A) (p : Point_3) : Element A :=
  {| position := p; attributes := attributes e |}.

(** [Tree tree(first, beyond)]. *)
Definition build_tree (c : list (Element A)) : Tree := map position c.

(** The loop of lines 153-157 on the container [c]: [it] is the index the
    iterator stands at, [n] the number of elements from [it] to [beyond].
    The query is read from the container as it is at that moment. *)
Fixpoint smooth_loop (tree : Tree) (k : Z) (n it : nat) (c : list (Element A))
  : result unit * list (Element A) :=
  match n with
  | O => (Done tt, c)
  | S n' =>
      match c !! it with
      | None => (Done tt, c)
      | Some e =>
          match pca_smooth_point (position e) tree k with
          | Precondition_failed a => (Precondition_failed a, c)
          | Done p => smooth_loop tree k n' (S it) (<[it := set_position e p]> c)
          end
      end
  end.

Definition pca_smooth_point_set (c : list (Element A)) (k : Z)
  : result unit * list (Element A) :=
  if (length c =? 0)%nat then (Precondition_failed Pre_first_ne_beyond, c)
  else if k <? 2 then (Precondition_failed Pre_k_ge_2, c)
  else
    let tree := build_tree c in
    smooth_loop tree k (length c) 0 c.

(** *** The two-phase reading of the pass

    The read phase issues every query against the frozen container and
    keeps the relocations in a buffer; the write phase applies them. *)
Fixpoint read_phase (tree : Tree) (k : Z) (c : list (Element A)) : result (list Point_3) :=
  match c with
  | [] => Done []
  | e :: rest =>
      match pca_smooth_point (position e) tree k with
      | Precondition_failed a => Precondition_failed a
      | Done p =>
          match read_phase tree k rest with
          | Precondition_failed a => Precondition_failed a
          | Done buffer => Done (p :: buffer)
          end
      end
  end.

Fixpoint write_phase (c : list (Element A)) (buffer : list Point_3) : list (Element A) :=
  match c, buffer with
  | e :: rest, p :: buffer' => set_position e p :: write_phase rest buffer'
  | _, _ => c
  end.

Definition two_phase_smooth (c : list (Element A)) (k : Z)
  : result unit * list (Element A) :=
  if (length c =? 0)%nat then (Precondition_failed Pre_first_ne_beyond, c)
  else if k <? 2 then (Precondition_failed Pre_k_ge_2, c)
  else
    let tree := build_tree c in
    match read_phase tree k c with
    | Precondition_failed a => (Precondition_failed a, c)
    | Done buffer => (Done tt, write_phase c buffer)
    end.

(** The position the pass gives to a point [q] of the original range. *)
Definition smoothed_position (tree : Tree) (k : Z) (q : Point_3) : Point_3 :=
  projection (linear_least_squares_fitting_3 (Neighbor_search tree q (k + 1))) q.

Definition relocate (tree : Tree) (k : Z) (e : Element A) : Element A :=
  set_position e (smoothed_position tree k (position e)).

End Range.

End WithKernel.

Arguments Element {K} A.
Arguments Build_Element {K A} position attributes.
Arguments position {K A} e.
Arguments attributes {K A} e.

End Smooth.

(** A small kernel on which the generic code can be run: points of the
    integer lattice, horizontal planes [z = h], fitting by the mean
    height.  It only serves to evaluate the functions on concrete
    ranges. *)
Module Lattice.

Definition point : Type := Z * Z * Z.

Definition squared_distance (a b : point) : Z :=
  let '(ax, ay, az) := a in
  let '(bx, b_y, bz) := b in
  (ax - bx) * (ax - bx) + (ay - b_y) * (ay - b_y) + (az - bz) * (az - bz).

Definition height (p : point) : Z := let '(_, _, z) := p in z.

Definition mean_height (points : list point) : Z :=
  foldr Z.add 0 (map height points) / Z.of_nat (length points).

Definition lift (h : Z) (p : point) : point := let '(x, y, _) := p in (x, y, h).

Definition kernel : Kernel := {|
  Point_3 := point;
  Plane_3 := Z;
  has_smaller_distance_to_point q a b := squared_distance q a <? squared_distance q b;
  linear_least_squares_fitting_3 := mean_height;
  projection := lift
|}.

Definition elt (p : point) : Smooth.Element (K := kernel) unit :=
  Smooth.Build_Element (K := kernel) p tt.

End Lattice.

(** ** The test driver, [normal_estimation_test.cpp] *)

Module Driver.

Definition EXIT_SUCCESS : Z := 0.
Definition EXIT_FAILURE : Z := 1.

(** [int nb_vertices = points.size()]: conversion to a 32-bit [int]. *)
Definition to_int (n : Z) : Z := (n + 2 ^ 31) mod 2 ^ 32 - 2 ^ 31.

(** A [double]: comparisons with a NaN are false. *)
Inductive double : Type :=
  | NaN
  | Infinity (negative : bool)
  | Finite (q : Q).

Definition Qlt_b (x y : Q) : bool := negb (Qle_bool y x).

Definition double_lt (a b : double) : bool :=
  match a, b with
  | NaN, _ | _, NaN => false
  | Finite x, Finite y => Qlt_b x y
  | Infinity true, Infinity true => false
  | Infinity true, _ => true
  | _, Infinity true => false
  | Infinity false, _ => false
  | Finite _, Infinity false => true
  end.

Definition double_gt (a b : double) : bool := double_lt b a.

(** [CGAL::Orientable_normal_3<Kernel>]: a vector and its orientation flag. *)
Record Orientable_normal : Type := {
  nx : Q;
  ny : Q;
  nz : Q;
  is_oriented : bool
}.

(** [v * v] *)
Definition dot (a b : Orientable_normal) : Q :=
  (nx a * nx b + ny a * ny b + nz a * nz b)%Q.

(** The number of normals that the loop of lines 217-227 finds unoriented. *)
Definition count_unoriented (normals : list Orientable_normal) : Z :=
  Z.of_nat (length (filter (fun n => is_oriented n = false) normals)).

(** [assert(norm > 0.99 || norm < 1.01)], line 222. *)
Definition unit_vector_assertion (norm : double) : bool :=
  double_gt norm (Finite (99 # 100)) || double_lt norm (Finite (101 # 100)).

(** [std::string::find_last_of(c)]; [None] is [npos]. *)
Fixpoint find_last_of_from (s : string) (c : ascii) (pos : nat) : option nat :=
  match s with
  | EmptyString => None
  | String a rest =>
      match find_last_of_from rest c (S pos) with
      | Some p => Some p
      | None => if Ascii.eqb a c then Some pos else None
      end
  end.

Definition find_last_of (s : string) (c : ascii) : option nat := find_last_of_from s c 0.

Fixpoint drop_chars (pos : nat) (s : string) : string :=
  match pos, s with
  | O, _ => s
  | S pos', String _ rest => drop_chars pos' rest
  | S _, EmptyString => EmptyString
  end.

(** [std::string::substr(pos)]: throws [std::out_of_range] when
    [pos > size()], as [npos] always is. *)
Definition substr (s : string) (pos : option nat) : option string :=
  match pos with
  | None => None
  | Some p => if (p <=? String.length s)%nat then Some (drop_chars p s) else None
  end.

Inductive abort : Set :=
  | Uncaught_out_of_range
  | Assertion_failed.

Inductive run : Type :=
  | Returns (status : Z)
  | Terminates (why : abort).

Section Main.

(** What [main] calls and the sources do not contain. *)
Variable Point : Type.
Variable surface_reconstruction_read_xyz : string -> option (list Point).
Variable estimate_normals_pca_3 : list Point -> Z -> list Orientable_normal.
Variable estimate_normals_jet_fitting_3 : list Point -> Z -> list Orientable_normal.
Variable orient_normals_minimum_spanning_tree_3 :
  list Point -> list Orientable_normal -> Z -> list Orientable_normal.
Variable std_sqrt : Q -> double.

(** Lines 215-227: [None] when the assertion fails, otherwise the count.
    [unoriented_normals] is an [int]: [unoriented_normals++] is taken to
    wrap around as [nb_vertices] does. *)
Fixpoint check_computed_normals (normals : list Orientable_normal) (unoriented_normals : Z)
  : option Z :=
  match normals with
  | [] => Some unoriented_normals
  | n :: rest =>
      let norm := std_sqrt (dot n n) in
      if unit_vector_assertion norm
      then check_computed_normals rest
             (if is_oriented n then unoriented_normals else to_int (unoriented_normals + 1))
      else None
  end.

Definition k : Z := 10.

(** Lines 204-212. *)
Definition compute_normals (points : list Point) : list Orientable_normal :=
  let computed_normals := estimate_normals_pca_3 points k in
  let computed_normals := estimate_normals_jet_fitting_3 points k in
  orient_normals_minimum_spanning_tree_3 points computed_normals k.

(** The loop of lines 145-234 over [argv[1..argc-1]]. *)
Fixpoint process_files (files : list string) (accumulated_fatal_err : Z) : run :=
  match files with
  | [] => Returns accumulated_fatal_err
  | input_filename :: rest =>
      match substr input_filename (find_last_of input_filename ".") with
      | None => Terminates Uncaught_out_of_range
      | Some extension =>
          if String.eqb extension ".xyz" || String.eqb extension ".XYZ"
          then
            match surface_reconstruction_read_xyz input_filename with
            | None => process_files rest EXIT_FAILURE
            | Some points =>
                let nb_vertices := to_int (Z.of_nat (length points)) in
                if nb_vertices =? 0 then process_files rest EXIT_FAILURE
                else
                  match check_computed_normals (compute_normals points) 0 with
                  | None => Terminates Assertion_failed
                  | Some unoriented_normals =>
                      if 0 <? unoriented_normals
                      then process_files rest EXIT_FAILURE
                      else process_files rest accumulated_fatal_err
                  end
            end
          else process_files rest EXIT_FAILURE
      end
  end.

Definition main (argv : list string) : run :=
  let argc := Z.of_nat (length argv) in
  if argc - 1 =? 0 then Returns EXIT_FAILURE
  else process_files (tail argv) EXIT_SUCCESS.

(** Whether the driver records a failure for a file it gets through. *)
Definition has_xyz_extension (input_filename : string) : bool :=
  match substr input_filename (find_last_of input_filename ".") with
  | Some extension => String.eqb extension ".xyz" || String.eqb extension ".XYZ"
  | None => false
  end.

Definition file_failed (input_filename : string) : bool :=
  if has_xyz_extension input_filename
  then
    match surface_reconstruction_read_xyz input_filename with
    | None => true
    | Some points =>
        (to_int (Z.of_nat (length points)) =? 0)
        || match check_computed_normals (compute_normals points) 0 with
           | Some unoriented_normals => 0 <? unoriented_normals
           | None => true
           end
    end
  else true.

(** Whether [main] gets through a file without being terminated. *)
Definition file_survives (input_filename : string) : bool :=
  match substr input_filename (find_last_of input_filename ".") with
  | None => false
  | Some extension =>
      if String.eqb extension ".xyz" || String.eqb extension ".XYZ"
      then
        match surface_reconstruction_read_xyz input_filename with
        | None => true
        | Some points =>
            (to_int (Z.of_nat (length points)) =? 0)
            || match check_computed_normals (compute_normals points) 0 with
               | Some _ => true
               | None => false
               end
        end
      else true
  end.

(** A file the driver has nothing to hold against: an [.xyz] or [.XYZ]
    extension, readable, with a vertex count that is not zero, and
    normals that all pass the assertion and are all oriented. *)
Definition accepted (input_filename : string) : Prop :=
  has_xyz_extension input_filename = true
  /\ exists points,
      surface_reconstruction_read_xyz input_filename = Some points
      /\ to_int (Z.of_nat (length points)) <> 0
      /\ forall n, n ∈ compute_normals points ->
                   std_sqrt (dot n n) <> NaN /\ is_oriented n = true.

(** The normals computed for a file are few enough for the [int] counter
    of the check loop. *)
Definition countable (input_filename : string) : Prop :=
  forall points,
    surface_reconstruction_read_xyz input_filename = Some points ->
    Z.of_nat (length (compute_normals points)) < 2 ^ 31.

End Main.

End Driver.

(** ** Orientation propagation

    Modelled from the spec: [orient_normals_minimum_spanning_tree_3]
    ([orient_normals_minimum_spanning_tree_3.h] is not among the sources),
    after section 4.4: the reference vertex of a component gets a fixed
    orientation (towards +z); the spanning tree is then walked from it
    and, at every non-root vertex, the normal is compared with the
    parent's and negated when the dot product is negative; every vertex
    visited is marked oriented.  A disconnected graph gives one walk per
    component.  Zero points is the [EmptyGraph] failure. *)

Module Orient.

Import Driver.

Definition flip (n : Orientable_normal) : Orientable_normal :=
  {| nx := - nx n; ny := - ny n; nz := - nz n; is_oriented := is_oriented n |}.

Definition mark_oriented (n : Orientable_normal) : Orientable_normal :=
  {| nx := nx n; ny := ny n; nz := nz n; is_oriented := true |}.

(** One move of the walk over the spanning forest, in the order the
    breadth-first or depth-first traversal makes them. *)
Inductive move : Set :=
  | Start (reference : nat)        (* step 1, at the root of a component *)
  | Follow (parent child : nat).   (* step 3, along a tree edge *)

Definition orient_reference (n : Orientable_normal) : Orientable_normal :=
  mark_oriented (if Qlt_b (nz n) 0 then flip n else n).

Definition orient_child (parent_normal n : Orientable_normal) : Orientable_normal :=
  mark_oriented (if Qlt_b (dot parent_normal n) 0 then flip n else n).

Definition propagate (normals : list Orientable_normal) (m : move) : list Orientable_normal :=
  match m with
  | Start reference =>
      match normals !! reference with
      | Some n => <[reference := orient_reference n]> normals
      | None => normals
      end
  | Follow parent child =>
      match normals !! parent, normals !! child with
      | Some np, Some nc => <[child := orient_child np nc]> normals
      | _, _ => normals
      end
  end.

Inductive orientation_error : Set := EmptyGraph.

(** The vertex a move reaches. *)
Definition reached (m : move) : nat :=
  match m with
  | Start reference => reference
  | Follow _ child => child
  end.

Definition mem (v : nat) (visited : list nat) : bool := existsb (Nat.eqb v) visited.

(** [walk] is a traversal of a spanning forest of the vertices
    [0 .. n-1], given the vertices [visited] before it: every move
    reaches a new vertex, and an edge is followed from a vertex already
    visited. *)
Fixpoint is_walk (n : nat) (visited : list nat) (walk : list move) : bool :=
  match walk with
  | [] => true
  | m :: rest =>
      (reached m <? n)%nat
      && negb (mem (reached m) visited)
      && match m with
         | Start _ => true
         | Follow parent _ => mem parent visited
         end
      && is_walk n (reached m :: visited) rest
  end.

(** The vertices visited once [walk] has been made from [visited]. *)
Definition visit (visited : list nat) (walk : list move) : list nat :=
  fold_left (fun vis m => reached m :: vis) walk visited.

Section Propagator.

(** What NeighborQuery answers, by index: [nearest !! i] lists the
    indices of the k nearest neighbours of point [i]. *)
Variable nearest : list (list nat).

(** The unoriented normals the graph is built on. *)
Variable normals : list Orientable_normal.

Definition neighbours_of (u : nat) : list nat :=
  match nearest !! u with
  | Some l => l
  | None => []
  end.

(** The Riemannian graph (sections 3 and 4.3): vertices [0 .. N-1], [u]
    and [v] joined when one is among the nearest neighbours of the other,
    with weight [1 - |n_u . n_v|]. *)
Definition vertices : list nat := seq 0 (length normals).

Definition adjacent (u v : nat) : bool :=
  mem v (neighbours_of u) || mem u (neighbours_of v).

Definition weight (e : nat * nat) : Q :=
  match normals !! e.1, normals !! e.2 with
  | Some a, Some b => 1 - Qabs (dot a b)
  | _, _ => 1
  end.

(** The edges that lead from the tree built so far to a vertex outside
    of it, by vertex index. *)
Definition frontier (visited : list nat) : list (nat * nat) :=
  flat_map
    (fun u =>
       if mem u visited
       then map (pair u)
              (List.filter (fun v => adjacent u v && negb (mem v visited)) vertices)
       else [])
    vertices.

(** The lowest weight wins; on equal weights, the edge that comes first
    by vertex index. *)
Fixpoint lightest (best : nat * nat) (edges : list (nat * nat)) : nat * nat :=
  match edges with
  | [] => best
  | e :: rest => lightest (if Qlt_b (weight e) (weight best) then e else best) rest
  end.

Definition lightest_edge (visited : list nat) : option (nat * nat) :=
  match frontier visited with
  | [] => None
  | e :: rest => Some (lightest e rest)
  end.

(** Step 2, Prim's algorithm: the tree grows by the lightest edge that
    leaves it, until none does.  The edges come out parent first, which
    is an order in which step 3 can walk the tree. *)
Fixpoint grow (fuel : nat) (visited : list nat) : list move :=
  match fuel with
  | O => []
  | S fuel' =>
      match lightest_edge visited with
      | None => []
      | Some (u, v) => Follow u v :: grow fuel' (v :: visited)
      end
  end.

(** Step 4: the next component starts at the first vertex not yet visited. *)
Definition next_reference (visited : list nat) : option nat :=
  List.find (fun v => negb (mem v visited)) vertices.

Fixpoint components (fuel : nat) (visited : list nat) : list move :=
  match fuel with
  | O => []
  | S fuel' =>
      match next_reference visited with
      | None => []
      | Some r =>
          let tree := grow (length normals) (r :: visited) in
          Start r :: tree ++ components fuel' (visit (r :: visited) tree)
      end
  end.

(** The whole walk: the component of the reference vertex first. *)
Definition spanning_walk (reference : nat) : list move :=
  let tree := grow (length normals) [reference] in
  Start reference :: tree ++ components (length normals) (visit [reference] tree).

(** [v] can be reached from [root] along edges of the graph. *)
Inductive reachable (root : nat) : nat -> Prop :=
  | reachable_root : reachable root root
  | reachable_edge u v :
      reachable root u ->
      (v < length normals)%nat ->
      adjacent u v = true ->
      reachable root v.

(** No edge of the graph leaves the set. *)
Definition closed (visited : list nat) : Prop :=
  forall u v,
    (u < length normals)%nat -> In u visited ->
    (v < length normals)%nat -> adjacent u v = true ->
    In v visited.

End Propagator.

(** Modelled from the spec: the propagator of section 4.4, which builds
    the spanning tree (or forest) of the Riemannian graph and walks it by
    itself; [nearest] is what NeighborQuery answers and [reference] the
    recorded choice of step 1.  Zero points is the [EmptyGraph] failure. *)
Definition orient_normals_minimum_spanning_tree_3
  (nearest : list (list nat)) (reference : nat) (normals : list Orientable_normal)
  : orientation_error + list Orientable_normal :=
  match normals with
  | [] => inl EmptyGraph
  | _ => inr (fold_left propagate (spanning_walk nearest normals reference) normals)
  end.

(** Three points in a row, each next to the following one. *)
Definition sample_nearest : list (list nat) := [[1]; [0; 2]; [1]]%nat.

Definition sample_normals : list Orientable_normal :=
  [ {| nx := 0; ny := 0; nz := -1; is_oriented := false |};
    {| nx := 0; ny := 0; nz := 1; is_oriented := false |};
    {| nx := 0; ny := 3 # 5; nz := 4 # 5; is_oriented := false |} ].

Definition sample_walk : list move := [Start 0; Follow 0 1; Follow 1 2]%nat.

End Orient.

(** A stand-in for what the driver calls, on which [main] can be run:
    every file but ["missing.xyz"] holds one point, the estimators
    return the three sample normals, and the orientation marks them. *)
Module SampleRun.

Definition read_xyz (input_filename : string) : option (list unit) :=
  if String.eqb input_filename "missing.xyz" then None else Some [tt].

Definition estimate_pca (points : list unit) (k : Z) : list Driver.Orientable_normal := [].

Definition estimate_jet (points : list unit) (k : Z) : list Driver.Orientable_normal :=
  Orient.sample_normals.

Definition orient (points : list unit) (normals : list Driver.Orientable_normal) (k : Z)
  : list Driver.Orientable_normal :=
  map Orient.mark_oriented normals.

Definition main : list string -> Driver.run :=
  Driver.main unit read_xyz estimate_pca estimate_jet orient Driver.Finite.

Definition process_files : list string -> Z -> Driver.run :=
  Driver.process_files unit read_xyz estimate_pca estimate_jet orient Driver.Finite.

(** A second stand-in: a file of [2^31] points, one normal per point, and
    an orientation that leaves every normal unoriented. *)
Definition many : nat := Z.to_nat (2 ^ 31).

Definition upward : Driver.Orientable_normal :=
  {| Driver.nx := 0; Driver.ny := 0; Driver.nz := 1; Driver.is_oriented := false |}.

Definition read_many (input_filename : string) : option (list unit) :=
  Some (repeat tt many).

Definition estimate_upward (points : list unit) (k : Z) : list Driver.Orientable_normal :=
  map (fun _ => upward) points.

Definition leave_unoriented
  (points : list unit) (normals : list Driver.Orientable_normal) (k : Z)
  : list Driver.Orientable_normal :=
  normals.

Definition main_many : list string -> Driver.run :=
  Driver.main unit read_many estimate_pca estimate_upward leave_unoriented Driver.Finite.

End SampleRun.

(** * Properties *)

(** ** The smoothing pass *)

Module SmoothFacts.

Import Smooth.

Section WithKernel.

Context {K : Kernel}.

Lemma uint_add_no_wrap k : 0 <= k -> k < UINT_MAX -> uint_add k 1 = k + 1.
Proof.
  intros Hlo Hhi. unfold uint_add, UINT_MAX in *.
  apply Z.mod_small. lia.
Qed.

Lemma uint_add_wrap : uint_add UINT_MAX 1 = 0.
Proof. reflexivity. Qed.

Lemma length_insert_by_distance q p sorted :
  length (insert_by_distance q p sorted) = S (length sorted).
Proof.
  induction sorted as [|x xs IH]; simpl; [reflexivity|].
  destruct (has_smaller_distance_to_point q x p); simpl; [rewrite IH|]; reflexivity.
Qed.

Lemma length_nearest_first q (tree : Tree) : length (nearest_first q tree) = length tree.
Proof.
  unfold nearest_first.
  induction tree as [|p tree IH]; simpl; [reflexivity|].
  rewrite length_insert_by_distance, IH. reflexivity.
Qed.

Lemma length_Neighbor_search (tree : Tree) q count :
  length (Neighbor_search tree q count) = Nat.min (Z.to_nat count) (length tree).
Proof.
  unfold Neighbor_search. rewrite length_take, length_nearest_first. reflexivity.
Qed.

(** The loop appends the first [n] points of the iterator. *)
Lemma gather_take n : forall it points, gather n it points = points ++ take n it.
Proof.
  induction n as [|n IH]; intros it points; simpl.
  - rewrite take_0, app_nil_r. reflexivity.
  - destruct it as [|p rest]; simpl.
    + rewrite app_nil_r. reflexivity.
    + rewrite IH, <- app_assoc. reflexivity.
Qed.

(** All the points the search yields are gathered. *)
Lemma gather_neighbors_found query (tree : Tree) k :
  gather_neighbors query tree k = Neighbor_search tree query (uint_add k 1).
Proof.
  unfold gather_neighbors, Neighbor_search.
  rewrite gather_take. simpl.
  rewrite take_take, Nat.min_id. reflexivity.
Qed.

Lemma length_gather_neighbors query (tree : Tree) k :
  length (gather_neighbors query tree k)
  = Nat.min (Z.to_nat (uint_add k 1)) (length tree).
Proof. rewrite gather_neighbors_found. apply length_Neighbor_search. Qed.

Lemma pca_smooth_point_unfold query (tree : Tree) k :
  pca_smooth_point query tree k =
  if (1 <=? Nat.min (Z.to_nat (uint_add k 1)) (length tree))%nat
  then Done (projection
               (linear_least_squares_fitting_3 (Neighbor_search tree query (uint_add k 1)))
               query)
  else Precondition_failed Pre_points_size_ge_1.
Proof.
  unfold pca_smooth_point. cbv zeta.
  rewrite length_gather_neighbors, gather_neighbors_found. reflexivity.
Qed.

Lemma pca_smooth_point_in_range query (tree : Tree) k :
  tree <> [] -> 0 <= k -> k < UINT_MAX ->
  pca_smooth_point query tree k = Done (smoothed_position tree k query).
Proof.
  intros Htree Hlo Hhi.
  rewrite pca_smooth_point_unfold, uint_add_no_wrap by assumption.
  destruct tree as [|p tree]; [congruence|].
  replace (Z.to_nat (k + 1)) with (S (Z.to_nat k)) by lia.
  reflexivity.
Qed.

Lemma pca_smooth_point_wrapped query (tree : Tree) :
  pca_smooth_point query tree UINT_MAX = Precondition_failed Pre_points_size_ge_1.
Proof. rewrite pca_smooth_point_unfold, uint_add_wrap. reflexivity. Qed.

(** Whether a query succeeds does not depend on the query. *)
Lemma pca_smooth_point_uniform (tree : Tree) k :
  (exists g, forall query, pca_smooth_point query tree k = Done (g query))
  \/ (forall query, pca_smooth_point query tree k = Precondition_failed Pre_points_size_ge_1).
Proof.
  destruct (1 <=? Nat.min (Z.to_nat (uint_add k 1)) (length tree))%nat eqn:E.
  - left.
    exists (fun query =>
              projection
                (linear_least_squares_fitting_3 (Neighbor_search tree query (uint_add k 1)))
                query).
    intros query. rewrite pca_smooth_point_unfold, E. reflexivity.
  - right. intros query. rewrite pca_smooth_point_unfold, E. reflexivity.
Qed.

Section Range.

Context {A : Type}.

Implicit Types (c done rest : list (Element A)) (e : Element A).

Lemma attributes_set_position e p : attributes (set_position e p) = attributes e.
Proof. reflexivity. Qed.

Lemma position_set_position e p : position (set_position e p) = p.
Proof. reflexivity. Qed.

(** The loop, started at the end of a prefix [done] already relocated:
    the elements of [rest] are still the original ones when the iterator
    reaches them. *)
Lemma smooth_loop_relocates (tree : Tree) k (g : Point_3 -> Point_3) :
  (forall query, pca_smooth_point query tree k = Done (g query)) ->
  forall rest done,
    smooth_loop tree k (length rest) (length done) (done ++ rest)
    = (Done tt, done ++ map (fun e => set_position e (g (position e))) rest).
Proof.
  intros Hg rest.
  induction rest as [|e rest IH]; intros done; simpl; [reflexivity|].
  rewrite list_lookup_middle by reflexivity.
  rewrite Hg.
  replace (<[length done := set_position e (g (position e))]> (done ++ e :: rest))
    with ((done ++ [set_position e (g (position e))]) ++ rest).
  - replace (S (length done)) with (length (done ++ [set_position e (g (position e))]))
      by (rewrite length_app; simpl; lia).
    rewrite IH, <- app_assoc. reflexivity.
  - rewrite <- app_assoc. simpl.
    rewrite insert_app_r_alt by lia.
    rewrite Nat.sub_diag. reflexivity.
Qed.

Lemma smooth_loop_fails (tree : Tree) k e rest done :
  (forall query, pca_smooth_point query tree k = Precondition_failed Pre_points_size_ge_1) ->
  smooth_loop tree k (length (e :: rest)) (length done) (done ++ e :: rest)
  = (Precondition_failed Pre_points_size_ge_1, done ++ e :: rest).
Proof.
  intros Hf. simpl.
  rewrite list_lookup_middle by reflexivity.
  rewrite Hf. reflexivity.
Qed.

Lemma smooth_loop_from_first (tree : Tree) k (g : Point_3 -> Point_3) c :
  (forall query, pca_smooth_point query tree k = Done (g query)) ->
  smooth_loop tree k (length c) 0 c
  = (Done tt, map (fun e => set_position e (g (position e))) c).
Proof. intros Hg. apply (smooth_loop_relocates tree k g Hg c []). Qed.

Lemma smooth_loop_fails_at_first (tree : Tree) k e c :
  (forall query, pca_smooth_point query tree k = Precondition_failed Pre_points_size_ge_1) ->
  smooth_loop tree k (length (e :: c)) 0 (e :: c)
  = (Precondition_failed Pre_points_size_ge_1, e :: c).
Proof. intros Hf. apply (smooth_loop_fails tree k e c [] Hf). Qed.

Lemma read_phase_relocates (tree : Tree) k (g : Point_3 -> Point_3) :
  (forall query, pca_smooth_point query tree k = Done (g query)) ->
  forall c, read_phase tree k c = Done (map (fun e => g (position e)) c).
Proof.
  intros Hg c. induction c as [|e c IH]; simpl; [reflexivity|].
  rewrite Hg, IH. reflexivity.
Qed.

Lemma write_phase_map (g : Point_3 -> Point_3) c :
  write_phase c (map (fun e => g (position e)) c)
  = map (fun e => set_position e (g (position e))) c.
Proof. induction c as [|e c IH]; simpl; [|rewrite IH]; reflexivity. Qed.

(** The loop neither adds nor removes elements and leaves what is not a
    position alone, whether it completes or not. *)
Lemma smooth_loop_frame (tree : Tree) k n :
  forall it c,
    length (smooth_loop tree k n it c).2 = length c
    /\ map attributes (smooth_loop tree k n it c).2 = map attributes c.
Proof.
  induction n as [|n IH]; intros it c; simpl; [split; reflexivity|].
  destruct (c !! it) as [e|] eqn:Hit; [|split; reflexivity].
  destruct (pca_smooth_point (position e) tree k) as [p|a]; [|split; reflexivity].
  destruct (IH (S it) (<[it := set_position e p]> c)) as [Hlen Hattr].
  rewrite Hlen, Hattr, length_insert. split; [reflexivity|].
  change (map attributes) with (fmap (M := list) (@attributes K A)).
  rewrite list_fmap_insert. apply list_insert_id.
  rewrite list_lookup_fmap, Hit. reflexivity.
Qed.

(** What the pass does inside the range of [k] where [k+1] does not wrap,
    the allocation of [points.reserve(k+1)] being taken as granted. *)
Lemma pca_smooth_point_set_in_range c k :
  c <> [] -> 2 <= k -> k < UINT_MAX ->
  pca_smooth_point_set c k = (Done tt, map (relocate (build_tree c) k) c).
Proof.
  intros Hc Hlo Hhi. unfold pca_smooth_point_set.
  destruct c as [|e0 c0] eqn:Ec; [congruence|]. rewrite <- Ec.
  replace (length c =? 0)%nat with false by (subst c; reflexivity).
  replace (k <? 2) with false by lia.
  cbv zeta.
  assert (Htree : build_tree c <> []) by (subst c; discriminate).
  apply smooth_loop_from_first.
  intros query. apply pca_smooth_point_in_range; [assumption | lia | assumption].
Qed.

(** C4: the pass keeps the number and the order of the elements and
    changes nothing but positions: the output has the length of the
    input and carries the same attributes, element by element, whatever
    the outcome of the call. *)
Theorem C4_smooth_frame c k :
  length (pca_smooth_point_set c k).2 = length c
  /\ map attributes (pca_smooth_point_set c k).2 = map attributes c.
Proof.
  unfold pca_smooth_point_set.
  destruct (length c =? 0)%nat; [split; reflexivity|].
  destruct (k <? 2); [split; reflexivity|].
  apply smooth_loop_frame.
Qed.

(** C8: the preconditions are checked on entry.  An empty range fails
    [first != beyond] and a non-empty range with [k < 2] fails [k >= 2],
    in both cases with the container as it was; when both hold, neither
    of the two fires. *)
Theorem C8_preconditions_checked_on_entry c k :
  (c = [] -> pca_smooth_point_set c k = (Precondition_failed Pre_first_ne_beyond, c))
  /\ (c <> [] -> k < 2 -> pca_smooth_point_set c k = (Precondition_failed Pre_k_ge_2, c))
  /\ (c <> [] -> 2 <= k ->
      (pca_smooth_point_set c k).1 <> Precondition_failed Pre_first_ne_beyond
      /\ (pca_smooth_point_set c k).1 <> Precondition_failed Pre_k_ge_2).
Proof.
  unfold pca_smooth_point_set. repeat split.
  - intros ->. reflexivity.
  - intros Hc Hk. destruct c; [congruence|]. simpl.
    replace (k <? 2) with true by lia. reflexivity.
  - destruct c as [|e c]; [congruence|].
    replace (length (e :: c) =? 0)%nat with false by reflexivity.
    replace (k <? 2) with false by lia. cbv zeta.
    destruct (pca_smooth_point_uniform (build_tree (e :: c)) k) as [[g Hg]|Hf].
    + rewrite (smooth_loop_from_first _ k g (e :: c) Hg). discriminate.
    + rewrite (smooth_loop_fails_at_first _ k e c Hf). discriminate.
  - destruct c as [|e c]; [congruence|].
    replace (length (e :: c) =? 0)%nat with false by reflexivity.
    replace (k <? 2) with false by lia. cbv zeta.
    destruct (pca_smooth_point_uniform (build_tree (e :: c)) k) as [[g Hg]|Hf].
    + rewrite (smooth_loop_from_first _ k g (e :: c) Hg). discriminate.
    + rewrite (smooth_loop_fails_at_first _ k e c Hf). discriminate.
Qed.

(** C9: the in-place pass, which reads each query from the container it
    is mutating, gives the same outcome and the same container as the
    two-phase pass, which computes every relocation from the frozen
    original container before writing any: each smoothed position
    depends on the original positions only. *)
Theorem C9_in_place_equals_two_phase c k :
  pca_smooth_point_set c k = two_phase_smooth c k.
Proof.
  unfold pca_smooth_point_set, two_phase_smooth.
  destruct (length c =? 0)%nat eqn:Hlen; [reflexivity|].
  destruct (k <? 2); [reflexivity|]. cbv zeta.
  destruct (pca_smooth_point_uniform (build_tree c) k) as [[g Hg]|Hf].
  - rewrite (smooth_loop_from_first _ k g c Hg).
    rewrite (read_phase_relocates _ k g Hg), write_phase_map. reflexivity.
  - destruct c as [|e c]; [discriminate|].
    rewrite (smooth_loop_fails_at_first _ k e c Hf).
    simpl. rewrite Hf. reflexivity.
Qed.

(** Inside the range where [k+1] does not wrap, and the allocation of
    [points.reserve(k+1)] being taken as granted, the pass completes on
    every non-empty range. *)
Lemma pca_smooth_point_set_total_in_range c k :
  c <> [] -> 2 <= k -> k < UINT_MAX -> (pca_smooth_point_set c k).1 = Done tt.
Proof.
  intros Hc Hlo Hhi. rewrite pca_smooth_point_set_in_range by assumption. reflexivity.
Qed.

(** C1 (the code at the failing input): at [k = UINT_MAX], which is
    [>= 2], no point of a non-empty range gets the projection the claim
    describes: the call does not complete and hands the range back with
    every position as it was. *)
Theorem C1_no_point_relocated_at_uint_max c :
  c <> [] ->
  2 <= UINT_MAX
  /\ (pca_smooth_point_set c UINT_MAX).1 <> Done tt
  /\ (pca_smooth_point_set c UINT_MAX).2 = c.
Proof.
  intros Hc.
  split; [discriminate|].
  unfold pca_smooth_point_set.
  destruct c as [|e c]; [congruence|].
  replace (length (e :: c) =? 0)%nat with false by reflexivity.
  replace (UINT_MAX <? 2) with false by reflexivity. cbv zeta.
  rewrite (smooth_loop_fails_at_first _ UINT_MAX e c
             (fun query => pca_smooth_point_wrapped query _)).
  split; [discriminate | reflexivity].
Qed.

(** C10 (the code at the failing input): [k = UINT_MAX] satisfies the
    public preconditions on every non-empty range, yet the bound [k+1]
    of the gathering loop wraps to [0], no point is gathered, and the
    internal assertion [points.size() >= 1] fires at the first element,
    before anything is relocated. *)
Theorem C10_internal_assertion_reached_at_uint_max c :
  c <> [] ->
  is_uint UINT_MAX /\ 2 <= UINT_MAX
  /\ pca_smooth_point_set c UINT_MAX = (Precondition_failed Pre_points_size_ge_1, c).
Proof.
  intros Hc.
  split; [unfold is_uint, UINT_MAX; lia|].
  split; [discriminate|].
  unfold pca_smooth_point_set.
  destruct c as [|e c]; [congruence|].
  replace (length (e :: c) =? 0)%nat with false by reflexivity.
  replace (UINT_MAX <? 2) with false by reflexivity. cbv zeta.
  apply smooth_loop_fails_at_first.
  intros query. apply pca_smooth_point_wrapped.
Qed.

End Range.

(** C3: when the search yields fewer than [k+1] points, all of them are
    gathered; with at least one, the point is projected onto the plane
    fitted to exactly those; and the call fails, on
    [points.size() >= 1], exactly when no point was gathered. *)
Theorem C3_fewer_neighbors_than_requested query (tree : Tree) k :
  let found := Neighbor_search tree query (uint_add k 1) in
  Z.of_nat (length found) < k + 1 ->
  gather_neighbors query tree k = found
  /\ ((1 <= length found)%nat ->
      pca_smooth_point query tree k
      = Done (projection (linear_least_squares_fitting_3 found) query))
  /\ (pca_smooth_point query tree k = Precondition_failed Pre_points_size_ge_1
      <-> gather_neighbors query tree k = [])
  /\ (forall a, pca_smooth_point query tree k = Precondition_failed a ->
                a = Pre_points_size_ge_1).
Proof.
  intros found _. subst found.
  split; [apply gather_neighbors_found|].
  unfold pca_smooth_point. cbv zeta.
  rewrite gather_neighbors_found.
  destruct (Neighbor_search tree query (uint_add k 1)) as [|p l]; simpl.
  - repeat split; try lia; try congruence.
  - repeat split; try congruence; try discriminate.
Qed.

End WithKernel.

Lemma C1_witness :
  (pca_smooth_point_set [Lattice.elt (0, 0, 0); Lattice.elt (2, 0, 6)] UINT_MAX).2
  = [Lattice.elt (0, 0, 0); Lattice.elt (2, 0, 6)].
Proof.
  apply (C1_no_point_relocated_at_uint_max
           [Lattice.elt (0, 0, 0); Lattice.elt (2, 0, 6)]).
  discriminate.
Defined.

Lemma C3_witness :
  pca_smooth_point (K := Lattice.kernel) (0, 0, 0) [(0, 0, 0); (2, 0, 6)] 2
  = Done (0, 0, 3).
Proof.
  apply (C3_fewer_neighbors_than_requested (K := Lattice.kernel)
           (0, 0, 0) [(0, 0, 0); (2, 0, 6)] 2 ltac:(vm_compute; reflexivity)).
  vm_compute. lia.
Defined.

Lemma C10_witness :
  pca_smooth_point_set [Lattice.elt (0, 0, 0); Lattice.elt (2, 0, 6)] UINT_MAX
  = (Precondition_failed Pre_points_size_ge_1,
     [Lattice.elt (0, 0, 0); Lattice.elt (2, 0, 6)]).
Proof.
  apply (C10_internal_assertion_reached_at_uint_max
           [Lattice.elt (0, 0, 0); Lattice.elt (2, 0, 6)]).
  discriminate.
Defined.

Lemma C8_witness :
  pca_smooth_point_set [Lattice.elt (0, 0, 0)] 1
  = (Precondition_failed Pre_k_ge_2, [Lattice.elt (0, 0, 0)]).
Proof.
  apply (C8_preconditions_checked_on_entry [Lattice.elt (0, 0, 0)] 1);
    [discriminate | lia].
Defined.

End SmoothFacts.

(** ** The test driver *)

Module DriverFacts.

Import Driver.

Lemma Qlt_b_true x y : Qlt_b x y = true <-> (x < y)%Q.
Proof.
  unfold Qlt_b. rewrite negb_true_iff.
  split.
  - intros H. apply Qnot_le_lt. intros Hle.
    apply Qle_bool_iff in Hle. congruence.
  - intros H. destruct (Qle_bool y x) eqn:E; [|reflexivity].
    apply Qle_bool_iff in E. apply Qlt_not_le in H. contradiction.
Qed.

Lemma Qlt_b_false x y : Qlt_b x y = false <-> (y <= x)%Q.
Proof.
  unfold Qlt_b. rewrite negb_false_iff. apply Qle_bool_iff.
Qed.

(** The assertion of line 222 holds of every number. *)
Lemma unit_vector_assertion_finite q : unit_vector_assertion (Finite q) = true.
Proof.
  unfold unit_vector_assertion, double_gt, double_lt.
  destruct (Qlt_b (99 # 100) q) eqn:E1; [reflexivity|].
  apply Qlt_b_false in E1. simpl.
  apply Qlt_b_true. lra.
Qed.

Lemma unit_vector_assertion_fails_iff_nan norm :
  unit_vector_assertion norm = false <-> norm = NaN.
Proof.
  destruct norm as [| [|] | q]; split; try reflexivity; try discriminate.
  rewrite unit_vector_assertion_finite. discriminate.
Qed.

(** C2 (the code at the failing input): the assertion of line 222 is a
    disjunction, so it fails for a NaN only; a magnitude of 2, outside of
    [0.99, 1.01], passes it. *)
Theorem C2_unit_vector_assertion_passes_outside_interval :
  (forall norm, unit_vector_assertion norm = false <-> norm = NaN)
  /\ unit_vector_assertion (Finite 2) = true
  /\ ~ (99 # 100 <= 2 <= 101 # 100)%Q.
Proof.
  split; [|split].
  - apply unit_vector_assertion_fails_iff_nan.
  - reflexivity.
  - intros [_ H]. revert H. apply Qlt_not_le. reflexivity.
Qed.

Section Main.

Variable Point : Type.
Variable surface_reconstruction_read_xyz : string -> option (list Point).
Variable estimate_normals_pca_3 : list Point -> Z -> list Orientable_normal.
Variable estimate_normals_jet_fitting_3 : list Point -> Z -> list Orientable_normal.
Variable orient_normals_minimum_spanning_tree_3 :
  list Point -> list Orientable_normal -> Z -> list Orientable_normal.
Variable std_sqrt : Q -> double.

#[local] Abbreviation process_files :=
  (process_files Point surface_reconstruction_read_xyz estimate_normals_pca_3
     estimate_normals_jet_fitting_3 orient_normals_minimum_spanning_tree_3 std_sqrt).
#[local] Abbreviation main :=
  (main Point surface_reconstruction_read_xyz estimate_normals_pca_3
     estimate_normals_jet_fitting_3 orient_normals_minimum_spanning_tree_3 std_sqrt).
#[local] Abbreviation file_failed :=
  (file_failed Point surface_reconstruction_read_xyz estimate_normals_pca_3
     estimate_normals_jet_fitting_3 orient_normals_minimum_spanning_tree_3 std_sqrt).
#[local] Abbreviation compute_normals :=
  (compute_normals Point estimate_normals_pca_3 estimate_normals_jet_fitting_3
     orient_normals_minimum_spanning_tree_3).
#[local] Abbreviation file_survives :=
  (file_survives Point surface_reconstruction_read_xyz estimate_normals_pca_3
     estimate_normals_jet_fitting_3 orient_normals_minimum_spanning_tree_3 std_sqrt).

(** As long as no file terminates the run, the loop goes through all the
    files and the status is [EXIT_FAILURE] exactly when one failed. *)
Lemma process_files_status files :
  forall accumulated_fatal_err,
    forallb file_survives files = true ->
    process_files files accumulated_fatal_err
    = Returns (if existsb file_failed files then EXIT_FAILURE else accumulated_fatal_err).
Proof.
  induction files as [|f files IH]; intros acc Hs; simpl; [reflexivity|].
  simpl in Hs. apply andb_true_iff in Hs as [Hf Hs].
  unfold file_survives in Hf. unfold file_failed at 1, has_xyz_extension.
  destruct (substr f (find_last_of f ".")) as [extension|]; [|discriminate].
  destruct (String.eqb extension ".xyz" || String.eqb extension ".XYZ").
  - destruct (surface_reconstruction_read_xyz f) as [points|].
    + destruct (to_int (Z.of_nat (length points)) =? 0).
      * rewrite (IH _ Hs). simpl. destruct (existsb _ files); reflexivity.
      * simpl in Hf |- *.
        destruct (check_computed_normals _ _ 0) as [unoriented|]; [|discriminate].
        destruct (0 <? unoriented); rewrite (IH _ Hs); simpl; [|reflexivity].
        destruct (existsb _ files); reflexivity.
    + rewrite (IH _ Hs). simpl. destruct (existsb _ files); reflexivity.
  - rewrite (IH _ Hs). simpl. destruct (existsb _ files); reflexivity.
Qed.

Lemma main_status prog files :
  forallb file_survives files = true ->
  main (prog :: files)
  = Returns (if (length files =? 0)%nat then EXIT_FAILURE
             else if existsb file_failed files then EXIT_FAILURE else EXIT_SUCCESS).
Proof.
  intros Hs. unfold Driver.main.
  destruct files as [|f files]; [reflexivity|].
  destruct (Z.eqb_spec (Z.of_nat (length (prog :: f :: files)) - 1) 0) as [E|_];
    [cbn [length] in E; lia|].
  simpl tail. rewrite process_files_status by assumption. reflexivity.
Qed.

(** C7 (the code at the failing input): a file name without a dot makes
    [substr(npos)] throw; nothing catches it, so the run ends there and
    the files after it are not processed. *)
Theorem C7_file_name_without_dot_terminates_run :
  find_last_of "points" "." = None
  /\ main ["normal_estimation_test"; "points"; "cloud.xyz"]%string
     = Terminates Uncaught_out_of_range.
Proof. split; reflexivity. Qed.

Lemma to_int_small n : - 2 ^ 31 <= n < 2 ^ 31 -> to_int n = n.
Proof.
  intros H. unfold to_int.
  rewrite Z.mod_small by lia. lia.
Qed.

Lemma count_unoriented_range normals :
  0 <= count_unoriented normals <= Z.of_nat (length normals).
Proof.
  unfold count_unoriented.
  pose proof (length_filter (fun n => is_oriented n = false) normals). lia.
Qed.

Lemma count_unoriented_cons n normals :
  count_unoriented (n :: normals)
  = (if is_oriented n then 0 else 1) + count_unoriented normals.
Proof.
  unfold count_unoriented. rewrite filter_cons.
  destruct (is_oriented n).
  - rewrite decide_False by discriminate. lia.
  - rewrite decide_True by reflexivity. cbn [length]. lia.
Qed.

(** The count of the check loop, as long as it fits an [int]. *)
Lemma check_computed_normals_count normals :
  forall unoriented_normals count,
    0 <= unoriented_normals ->
    unoriented_normals + count_unoriented normals < 2 ^ 31 ->
    check_computed_normals std_sqrt normals unoriented_normals = Some count ->
    count = unoriented_normals + count_unoriented normals.
Proof.
  induction normals as [|n normals IH]; intros acc count Hlo Hhi; simpl.
  - intros [= <-]. unfold count_unoriented. simpl. lia.
  - rewrite count_unoriented_cons in Hhi |- *.
    pose proof (count_unoriented_range normals) as Hr.
    destruct (unit_vector_assertion _); [|discriminate].
    destruct (is_oriented n).
    + intros H. apply IH in H; lia.
    + rewrite to_int_small by lia.
      intros H. apply IH in H; lia.
Qed.

Lemma check_computed_normals_passes normals :
  (forall n, n ∈ normals -> std_sqrt (dot n n) <> NaN) ->
  forall unoriented_normals,
    exists count, check_computed_normals std_sqrt normals unoriented_normals = Some count.
Proof.
  induction normals as [|n normals IH]; intros Hn acc; simpl; [eauto|].
  destruct (unit_vector_assertion (std_sqrt (dot n n))) eqn:E.
  - apply IH. intros n' Hin. apply Hn. apply elem_of_cons. auto.
  - exfalso. apply (Hn n); [apply elem_of_cons; auto|].
    apply unit_vector_assertion_fails_iff_nan. exact E.
Qed.

Lemma count_unoriented_pos normals :
  0 < count_unoriented normals
  <-> exists n, n ∈ normals /\ is_oriented n = false.
Proof.
  unfold count_unoriented.
  induction normals as [|n normals IH].
  - simpl. split; [lia|]. intros (n & Hn & _). apply elem_of_nil in Hn. contradiction.
  - rewrite filter_cons. destruct (is_oriented n) eqn:E.
    + rewrite decide_False by discriminate. rewrite IH. split.
      * intros (n' & Hin & Hn'). exists n'. split; [apply elem_of_cons; auto | exact Hn'].
      * intros (n' & Hin & Hn'). apply elem_of_cons in Hin as [-> | Hin]; [congruence|].
        exists n'. auto.
    + rewrite decide_True by reflexivity. cbn [length]. split; [|lia].
      intros _. exists n. split; [apply elem_of_cons; auto | exact E].
Qed.

End Main.

End DriverFacts.

(** ** Orientation propagation *)

Module OrientFacts.

Import Driver Orient.

Lemma dot_flip a b : (dot a (flip b) == - dot a b)%Q.
Proof. unfold dot, flip; simpl. ring. Qed.

(** A child agrees in sign with the parent it was oriented against. *)
Lemma dot_orient_child parent_normal n : (0 <= dot parent_normal (orient_child parent_normal n))%Q.
Proof.
  unfold orient_child.
  destruct (Qlt_b (dot parent_normal n) 0) eqn:E.
  - apply DriverFacts.Qlt_b_true in E.
    change (0 <= dot parent_normal (flip n))%Q.
    rewrite dot_flip. lra.
  - apply DriverFacts.Qlt_b_false in E. exact E.
Qed.

Lemma is_oriented_orient_child parent_normal n :
  is_oriented (orient_child parent_normal n) = true.
Proof. reflexivity. Qed.

Lemma is_oriented_orient_reference n : is_oriented (orient_reference n) = true.
Proof. reflexivity. Qed.

Lemma mem_true v visited : mem v visited = true <-> v ∈ visited.
Proof.
  unfold mem. rewrite existsb_exists. split.
  - intros (x & Hin & Heq). apply Nat.eqb_eq in Heq. subst x.
    apply list_elem_of_In. exact Hin.
  - intros Hin. exists v. split; [apply list_elem_of_In, Hin | apply Nat.eqb_refl].
Qed.

Lemma length_propagate normals m : length (propagate normals m) = length normals.
Proof.
  destruct m as [r | u v]; simpl.
  - destruct (normals !! r); [apply length_insert | reflexivity].
  - destruct (normals !! u); [|reflexivity].
    destruct (normals !! v); [apply length_insert | reflexivity].
Qed.

(** A move changes the normal of the vertex it reaches, and no other. *)
Lemma propagate_other normals m v :
  v <> reached m -> propagate normals m !! v = normals !! v.
Proof.
  intros Hv. destruct m as [r | u w]; simpl in *.
  - destruct (normals !! r); [|reflexivity].
    apply list_lookup_insert_ne. congruence.
  - destruct (normals !! u); [|reflexivity].
    destruct (normals !! w); [|reflexivity].
    apply list_lookup_insert_ne. congruence.
Qed.

Lemma is_walk_cons n visited m rest :
  is_walk n visited (m :: rest) = true ->
  (reached m < n)%nat
  /\ (reached m ∉ visited)
  /\ match m with Start _ => True | Follow parent _ => parent ∈ visited end
  /\ is_walk n (reached m :: visited) rest = true.
Proof.
  simpl. rewrite !andb_true_iff.
  intros [[[Hn Hfresh] Hparent] Hrest].
  split; [apply Nat.ltb_lt, Hn|].
  split.
  - rewrite <- mem_true. apply negb_true_iff in Hfresh. congruence.
  - split; [|exact Hrest].
    destruct m; [exact I | apply mem_true, Hparent].
Qed.

(** The rest of the walk leaves the vertices already visited as they are. *)
Lemma walk_keeps_visited n walk :
  forall visited normals v,
    is_walk n visited walk = true ->
    v ∈ visited ->
    fold_left propagate walk normals !! v = normals !! v.
Proof.
  induction walk as [|m rest IH]; intros visited normals v Hw Hv; simpl; [reflexivity|].
  apply is_walk_cons in Hw as (_ & Hfresh & _ & Hrest).
  rewrite (IH (reached m :: visited)); [|exact Hrest | apply elem_of_cons; auto].
  apply propagate_other. intros ->. contradiction.
Qed.

(** What a move leaves at the vertex it reaches. *)
Lemma propagate_reached n (visited : list nat) normals m :
  length normals = n ->
  (forall v, v ∈ visited -> (v < n)%nat) ->
  (reached m < n)%nat ->
  reached m ∉ visited ->
  match m with Start _ => True | Follow parent _ => parent ∈ visited end ->
  exists nc,
    propagate normals m !! reached m = Some nc
    /\ is_oriented nc = true
    /\ match m with
       | Start _ => True
       | Follow parent _ =>
           exists np, propagate normals m !! parent = Some np /\ (0 <= dot np nc)%Q
       end.
Proof.
  intros Hlen Hvis Hn Hfresh Hparent.
  destruct m as [r | u v]; simpl in *.
  - destruct (lookup_lt_is_Some_2 normals r ltac:(lia)) as [nr Hr].
    rewrite Hr. eexists. split; [apply list_lookup_insert_eq; lia|].
    split; [reflexivity | exact I].
  - destruct (lookup_lt_is_Some_2 normals u ltac:(specialize (Hvis u Hparent); lia))
      as [np Hu].
    destruct (lookup_lt_is_Some_2 normals v ltac:(lia)) as [nc Hv].
    rewrite Hu, Hv.
    exists (orient_child np nc).
    split; [apply list_lookup_insert_eq; lia|].
    split; [reflexivity|].
    exists np. split; [|apply dot_orient_child].
    rewrite list_lookup_insert_ne; [exact Hu|].
    intros ->. contradiction.
Qed.

Lemma walk_orients n walk :
  forall visited normals,
    length normals = n ->
    (forall v, v ∈ visited -> (v < n)%nat) ->
    is_walk n visited walk = true ->
    forall m, m ∈ walk ->
      exists nc,
        fold_left propagate walk normals !! reached m = Some nc
        /\ is_oriented nc = true
        /\ match m with
           | Start _ => True
           | Follow parent _ =>
               exists np,
                 fold_left propagate walk normals !! parent = Some np
                 /\ (0 <= dot np nc)%Q
           end.
Proof.
  induction walk as [|m0 rest IH]; intros visited normals Hlen Hvis Hw m Hm.
  - apply elem_of_nil in Hm. contradiction.
  - pose proof Hw as Hw0.
    apply is_walk_cons in Hw0 as (Hn & Hfresh & Hparent & Hrest).
    assert (Hvis' : forall v, v ∈ reached m0 :: visited -> (v < n)%nat).
    { intros v Hv. apply elem_of_cons in Hv as [-> | Hv]; [exact Hn | apply Hvis, Hv]. }
    simpl fold_left.
    apply elem_of_cons in Hm as [-> | Hm].
    + destruct (propagate_reached n visited normals m0 Hlen Hvis Hn Hfresh Hparent)
        as (nc & Hnc & Hor & Hdot).
      exists nc.
      rewrite (walk_keeps_visited n rest (reached m0 :: visited));
        [|exact Hrest | apply elem_of_cons; auto].
      split; [exact Hnc|]. split; [exact Hor|].
      destruct m0 as [r | u v]; [exact I|].
      destruct Hdot as (np & Hnp & Hge). exists np. split; [|exact Hge].
      rewrite (walk_keeps_visited n rest (reached (Follow u v) :: visited));
        [exact Hnp | exact Hrest | apply elem_of_cons; auto].
    + apply (IH (reached m0 :: visited)); try assumption.
      rewrite length_propagate. exact Hlen.
Qed.

(** C5: after the propagation along a walk of the spanning tree (or
    forest), the final normals at the two ends of every tree edge have a
    non-negative dot product. *)
Theorem C5_tree_edges_sign_consistent walk normals :
  is_walk (length normals) [] walk = true ->
  forall u v, Follow u v ∈ walk ->
    exists nu nv,
      fold_left propagate walk normals !! u = Some nu
      /\ fold_left propagate walk normals !! v = Some nv
      /\ (0 <= dot nu nv)%Q.
Proof.
  intros Hw u v Hin.
  destruct (walk_orients (length normals) walk [] normals eq_refl
              ltac:(intros x Hx; apply elem_of_nil in Hx; contradiction)
              Hw (Follow u v) Hin)
    as (nc & Hnc & _ & np & Hnp & Hge).
  exists np, nc. auto.
Qed.

Lemma C5_witness :
  exists nu nv,
    fold_left propagate sample_walk sample_normals !! 1%nat = Some nu
    /\ fold_left propagate sample_walk sample_normals !! 2%nat = Some nv
    /\ (0 <= dot nu nv)%Q.
Proof.
  apply (C5_tree_edges_sign_consistent sample_walk sample_normals eq_refl 1%nat 2%nat).
  apply elem_of_cons. right. apply elem_of_cons. right. apply elem_of_cons. left.
  reflexivity.
Defined.

End OrientFacts.

(** ** More on the smoothing pass *)

Module SmoothExtra.

Import Smooth SmoothFacts.

Section WithKernel.

Context {K : Kernel}.

(** X1: the gathering loop of lines 77-83 appends to [points], in the
    order of the search, the first [n] points the iterator has, or all of
    them when it has fewer; it never gathers more than its bound. *)
Theorem X1_gather_takes_prefix n (search_iterator points : list Point_3) :
  gather n search_iterator points = points ++ take n search_iterator
  /\ length (gather n search_iterator []) = Nat.min n (length search_iterator)
  /\ (length (gather n search_iterator []) <= n)%nat.
Proof.
  split; [apply gather_take|].
  rewrite gather_take. simpl. rewrite length_take.
  split; [reflexivity | lia].
Qed.

(** X2: as long as [k+1] does not wrap, the plane is fitted to exactly
    [min (k+1) N] points, [N] being the size of the tree. *)
Theorem X2_neighbourhood_size query (tree : Tree) k :
  0 <= k -> k < UINT_MAX ->
  Z.of_nat (length (gather_neighbors query tree k))
  = Z.min (k + 1) (Z.of_nat (length tree)).
Proof.
  intros Hlo Hhi.
  rewrite length_gather_neighbors, uint_add_no_wrap by assumption.
  lia.
Qed.

Lemma insert_by_distance_perm q p sorted : insert_by_distance q p sorted ≡ₚ p :: sorted.
Proof.
  induction sorted as [|x xs IH]; simpl; [reflexivity|].
  destruct (has_smaller_distance_to_point q x p); [|reflexivity].
  rewrite IH. apply Permutation_swap.
Qed.

Lemma nearest_first_perm q (tree : Tree) : nearest_first q tree ≡ₚ tree.
Proof.
  unfold nearest_first.
  induction tree as [|p tree IH]; simpl; [reflexivity|].
  rewrite insert_by_distance_perm, IH. reflexivity.
Qed.

(** X3: premature ending.  When the tree has at most [k+1] points, the
    points gathered for any query are all the points of the tree, each
    once. *)
Theorem X3_small_tree_gathers_every_point query (tree : Tree) k :
  0 <= k -> k < UINT_MAX ->
  Z.of_nat (length tree) <= k + 1 ->
  gather_neighbors query tree k ≡ₚ tree.
Proof.
  intros Hlo Hhi Hsmall.
  rewrite gather_neighbors_found, uint_add_no_wrap by assumption.
  unfold Neighbor_search.
  rewrite take_ge by (rewrite length_nearest_first; lia).
  apply nearest_first_perm.
Qed.

(** X6: on a tree of at most [k+1] and at most [k'+1] points, the same
    points are gathered, in the same order, for [k] and for [k']: once
    the bound covers the whole tree, the neighbourhood no longer depends
    on it. *)
Theorem X6_gathered_points_independent_of_k query (tree : Tree) k k' :
  0 <= k -> k < UINT_MAX -> 0 <= k' -> k' < UINT_MAX ->
  Z.of_nat (length tree) <= k + 1 -> Z.of_nat (length tree) <= k' + 1 ->
  gather_neighbors query tree k = gather_neighbors query tree k'.
Proof.
  intros Hk Hk1 Hk' Hk1' Hs Hs'.
  rewrite !gather_neighbors_found, !uint_add_no_wrap by assumption.
  unfold Neighbor_search.
  rewrite !take_ge; [reflexivity | |]; rewrite length_nearest_first; lia.
Qed.

Section Range.

Context {A : Type}.

Implicit Types (c : list (Element A)).

(** X4: a call that fails a precondition, whichever it is, returns the
    range as it received it: no element is relocated by a failed call. *)
Theorem X4_failed_call_leaves_range_untouched c k a :
  (pca_smooth_point_set c k).1 = Precondition_failed a ->
  (pca_smooth_point_set c k).2 = c.
Proof.
  unfold pca_smooth_point_set.
  destruct (length c =? 0)%nat; [reflexivity|].
  destruct (k <? 2); [reflexivity|]. cbv zeta.
  destruct (pca_smooth_point_uniform (build_tree c) k) as [[g Hg]|Hf].
  - rewrite (smooth_loop_from_first _ k g c Hg). discriminate.
  - destruct c as [|e c]; [reflexivity|].
    rewrite (smooth_loop_fails_at_first _ k e c Hf). reflexivity.
Qed.

(** X7: the loop never goes back: whatever it does from the iterator
    position [it] on, the elements before [it] stay as they are. *)
Theorem X7_loop_keeps_elements_behind_iterator (tree : Tree) k n :
  forall it c j,
    (j < it)%nat ->
    (smooth_loop tree k n it c).2 !! j = c !! j.
Proof.
  induction n as [|n IH]; intros it c j Hj; simpl; [reflexivity|].
  destruct (c !! it) as [e|]; [|reflexivity].
  destruct (pca_smooth_point (position e) tree k) as [p|a]; [|reflexivity].
  rewrite IH by lia.
  apply list_lookup_insert_ne. lia.
Qed.

End Range.

End WithKernel.

Lemma X2_witness :
  Z.of_nat (length (gather_neighbors (K := Lattice.kernel) (0, 0, 0)
                      [(0, 0, 0); (2, 0, 6); (0, 2, 3); (5, 5, 5)] 2))
  = 3.
Proof.
  exact (X2_neighbourhood_size (K := Lattice.kernel) (0, 0, 0)
           [(0, 0, 0); (2, 0, 6); (0, 2, 3); (5, 5, 5)] 2
           ltac:(lia) ltac:(reflexivity)).
Defined.

Lemma X3_witness :
  gather_neighbors (K := Lattice.kernel) (0, 2, 3) [(2, 0, 6); (0, 0, 0)] 2
  ≡ₚ [(2, 0, 6); (0, 0, 0)].
Proof.
  apply (X3_small_tree_gathers_every_point (K := Lattice.kernel)
           (0, 2, 3) [(2, 0, 6); (0, 0, 0)] 2
           ltac:(lia) ltac:(reflexivity)).
  simpl. lia.
Defined.

Lemma X4_witness :
  (pca_smooth_point_set [Lattice.elt (0, 0, 0); Lattice.elt (2, 0, 6)] 1).2
  = [Lattice.elt (0, 0, 0); Lattice.elt (2, 0, 6)].
Proof.
  apply (X4_failed_call_leaves_range_untouched
           [Lattice.elt (0, 0, 0); Lattice.elt (2, 0, 6)] 1 Pre_k_ge_2).
  reflexivity.
Defined.

Lemma X6_witness :
  gather_neighbors (K := Lattice.kernel) (0, 2, 3) [(2, 0, 6); (0, 0, 0)] 2
  = gather_neighbors (K := Lattice.kernel) (0, 2, 3) [(2, 0, 6); (0, 0, 0)] 10.
Proof.
  apply (X6_gathered_points_independent_of_k (K := Lattice.kernel)
           (0, 2, 3) [(2, 0, 6); (0, 0, 0)] 2 10);
    first [reflexivity | simpl; lia | lia].
Defined.

Lemma X7_witness :
  (smooth_loop (K := Lattice.kernel) [(0, 0, 0); (2, 0, 6)] 2 1 1
     [Lattice.elt (0, 0, 0); Lattice.elt (2, 0, 6)]).2 !! 0%nat
  = Some (Lattice.elt (0, 0, 0)).
Proof.
  apply (X7_loop_keeps_elements_behind_iterator (K := Lattice.kernel)
           [(0, 0, 0); (2, 0, 6)] 2 1 1
           [Lattice.elt (0, 0, 0); Lattice.elt (2, 0, 6)] 0%nat).
  lia.
Defined.

End SmoothExtra.

(** ** More on the test driver *)

Module DriverExtra.

Import Driver DriverFacts.

Lemma chars_append s t :
  list_ascii_of_string (s ++ t) = list_ascii_of_string s ++ list_ascii_of_string t.
Proof. induction s as [|a s IH]; simpl; [|rewrite IH]; reflexivity. Qed.

Lemma length_append s t : String.length (s ++ t) = (String.length s + String.length t)%nat.
Proof. induction s as [|a s IH]; simpl; [|rewrite IH]; reflexivity. Qed.

Lemma drop_chars_append s t : drop_chars (String.length s) (s ++ t) = t.
Proof. induction s as [|a s IH]; simpl; [destruct t|]; auto. Qed.

(** [find_last_of]: the position found is that of an occurrence with no
    later one. *)
Lemma find_last_of_from_spec c s :
  forall pos,
    match find_last_of_from s c pos with
    | None => ~ In c (list_ascii_of_string s)
    | Some p =>
        exists stem rest,
          s = (stem ++ String c rest)%string
          /\ ~ In c (list_ascii_of_string rest)
          /\ p = (pos + String.length stem)%nat
    end.
Proof.
  induction s as [|a s IH]; intros pos; simpl; [tauto|].
  specialize (IH (S pos)).
  destruct (find_last_of_from s c (S pos)) as [p|].
  - destruct IH as (stem & rest & -> & Hrest & ->).
    exists (String a stem), rest. simpl. repeat split; [assumption | lia].
  - destruct (Ascii.eqb_spec a c) as [-> | Hne].
    + exists EmptyString, s. simpl. repeat split; [assumption | lia].
    + simpl. intros [Heq | Hin]; [congruence | contradiction].
Qed.

(** X9: the extension of line 160.  For a name without the character the
    call [substr(find_last_of(c))] throws; otherwise it yields the suffix
    of the name that starts at the last occurrence of the character. *)
Theorem X9_extension_is_suffix_from_last_dot s c :
  (~ In c (list_ascii_of_string s) -> substr s (find_last_of s c) = None)
  /\ (In c (list_ascii_of_string s) ->
      exists stem rest,
        s = (stem ++ String c rest)%string
        /\ ~ In c (list_ascii_of_string rest)
        /\ substr s (find_last_of s c) = Some (String c rest)).
Proof.
  unfold find_last_of.
  pose proof (find_last_of_from_spec c s 0) as H.
  destruct (find_last_of_from s c 0) as [p|].
  - destruct H as (stem & rest & -> & Hrest & ->).
    split.
    + intros Hno. exfalso. apply Hno.
      rewrite chars_append. apply in_or_app. right. left. reflexivity.
    + intros _. exists stem, rest. repeat split; [assumption|].
      unfold substr. rewrite length_append.
      replace (0 + String.length stem <=? String.length stem + String.length (String c rest))%nat
        with true by (symmetry; apply Nat.leb_le; lia).
      simpl plus. rewrite drop_chars_append. reflexivity.
  - split; [reflexivity | contradiction].
Qed.

Lemma in_chars_middle c stem rest :
  In c (list_ascii_of_string (stem ++ String c rest)).
Proof. rewrite chars_append. apply in_or_app. right. left. reflexivity. Qed.

Lemma substr_find_last_of_none s c :
  substr s (find_last_of s c) = None <-> ~ In c (list_ascii_of_string s).
Proof.
  unfold find_last_of.
  pose proof (find_last_of_from_spec c s 0) as H.
  destruct (find_last_of_from s c 0) as [p|].
  - destruct H as (stem & rest & -> & _ & ->).
    split.
    + unfold substr. rewrite length_append.
      replace (0 + String.length stem <=? String.length stem + String.length (String c rest))%nat
        with true by (symmetry; apply Nat.leb_le; lia).
      discriminate.
    + intros Hno. exfalso. apply Hno, in_chars_middle.
  - split; [intros _; exact H | reflexivity].
Qed.

Lemma extension_some s c extension :
  substr s (find_last_of s c) = Some extension ->
  exists stem rest,
    s = (stem ++ String c rest)%string
    /\ ~ In c (list_ascii_of_string rest)
    /\ extension = String c rest.
Proof.
  unfold find_last_of.
  pose proof (find_last_of_from_spec c s 0) as H.
  destruct (find_last_of_from s c 0) as [p|]; [|discriminate].
  destruct H as (stem & rest & -> & Hrest & ->).
  unfold substr. rewrite length_append.
  replace (0 + String.length stem <=? String.length stem + String.length (String c rest))%nat
    with true by (symmetry; apply Nat.leb_le; lia).
  simpl plus. rewrite drop_chars_append. intros [= <-].
  exists stem, rest. auto.
Qed.

(** A string splits at the last occurrence of a character in one way only. *)
Lemma last_occurrence_unique c s1 :
  forall s2 r1 r2,
    (s1 ++ String c r1)%string = (s2 ++ String c r2)%string ->
    ~ In c (list_ascii_of_string r1) ->
    ~ In c (list_ascii_of_string r2) ->
    r1 = r2.
Proof.
  induction s1 as [|a s1 IH]; intros [|b s2] r1 r2 Heq H1 H2; simpl in Heq.
  - congruence.
  - injection Heq as <- ->. exfalso. apply H1, in_chars_middle.
  - injection Heq as -> <-. exfalso. apply H2, in_chars_middle.
  - injection Heq as _ Heq. exact (IH _ _ _ Heq H1 H2).
Qed.

(** X15: which names the driver takes for point set files: exactly those
    that end in [.xyz] or [.XYZ]. *)
Theorem X15_xyz_extension_iff_suffix input_filename :
  has_xyz_extension input_filename = true
  <-> exists stem,
      input_filename = (stem ++ ".xyz")%string \/ input_filename = (stem ++ ".XYZ")%string.
Proof.
  unfold has_xyz_extension. split.
  - destruct (substr input_filename (find_last_of input_filename ".")) as [extension|] eqn:E;
      [|discriminate].
    apply extension_some in E as (stem & rest & -> & _ & ->).
    intros H. apply orb_true_iff in H. exists stem.
    destruct H as [H | H]; apply String.eqb_eq in H; rewrite H; auto.
  - intros (stem & Hname).
    assert (Hdot : exists rest,
               input_filename = (stem ++ String "." rest)%string
               /\ ~ In "."%char (list_ascii_of_string rest)
               /\ (rest = "xyz"%string \/ rest = "XYZ"%string)).
    { destruct Hname as [-> | ->]; eexists; (split; [reflexivity|]);
        (split; [|auto]); simpl; intros H;
        repeat destruct H as [H | H]; try discriminate H; exact H. }
    destruct Hdot as (rest & Hsplit & Hrest & Hcase).
    destruct (substr input_filename (find_last_of input_filename ".")) as [extension|] eqn:E.
    + apply extension_some in E as (stem' & rest' & Hsplit' & Hrest' & ->).
      rewrite Hsplit in Hsplit'.
      rewrite <- (last_occurrence_unique _ _ _ _ _ Hsplit' Hrest Hrest').
      destruct Hcase as [-> | ->]; reflexivity.
    + apply substr_find_last_of_none in E. exfalso. apply E.
      rewrite Hsplit. apply in_chars_middle.
Qed.

Section Main.

Variable Point : Type.
Variable surface_reconstruction_read_xyz : string -> option (list Point).
Variable estimate_normals_pca_3 : list Point -> Z -> list Orientable_normal.
Variable estimate_normals_jet_fitting_3 : list Point -> Z -> list Orientable_normal.
Variable orient_normals_minimum_spanning_tree_3 :
  list Point -> list Orientable_normal -> Z -> list Orientable_normal.
Variable std_sqrt : Q -> double.

#[local] Abbreviation process_files :=
  (process_files Point surface_reconstruction_read_xyz estimate_normals_pca_3
     estimate_normals_jet_fitting_3 orient_normals_minimum_spanning_tree_3 std_sqrt).
#[local] Abbreviation main :=
  (main Point surface_reconstruction_read_xyz estimate_normals_pca_3
     estimate_normals_jet_fitting_3 orient_normals_minimum_spanning_tree_3 std_sqrt).
#[local] Abbreviation compute_normals :=
  (compute_normals Point estimate_normals_pca_3 estimate_normals_jet_fitting_3
     orient_normals_minimum_spanning_tree_3).
#[local] Abbreviation accepted :=
  (accepted Point surface_reconstruction_read_xyz estimate_normals_pca_3
     estimate_normals_jet_fitting_3 orient_normals_minimum_spanning_tree_3 std_sqrt).
#[local] Abbreviation countable :=
  (countable Point surface_reconstruction_read_xyz estimate_normals_pca_3
     estimate_normals_jet_fitting_3 orient_normals_minimum_spanning_tree_3).

(** The check loop gets to its end only when no norm is a NaN. *)
Lemma check_computed_normals_some normals :
  forall unoriented_normals count,
    check_computed_normals std_sqrt normals unoriented_normals = Some count ->
    forall n, n ∈ normals -> std_sqrt (dot n n) <> NaN.
Proof.
  induction normals as [|n0 normals IH]; intros acc count Hc n Hn.
  - apply elem_of_nil in Hn. contradiction.
  - simpl in Hc.
    destruct (unit_vector_assertion (std_sqrt (dot n0 n0))) eqn:E; [|discriminate].
    apply elem_of_cons in Hn as [-> | Hn]; [|eapply IH; eassumption].
    intros Hnan. apply unit_vector_assertion_fails_iff_nan in Hnan. congruence.
Qed.

Lemma check_computed_normals_none normals :
  forall unoriented_normals,
    check_computed_normals std_sqrt normals unoriented_normals = None ->
    exists n, n ∈ normals /\ std_sqrt (dot n n) = NaN.
Proof.
  induction normals as [|n0 normals IH]; intros acc; simpl; [discriminate|].
  destruct (unit_vector_assertion (std_sqrt (dot n0 n0))) eqn:E.
  - intros H. apply IH in H as (n & Hn & Hnan).
    exists n. split; [apply elem_of_cons; auto | exact Hnan].
  - intros _. exists n0. split; [apply elem_of_cons; auto|].
    apply unit_vector_assertion_fails_iff_nan. exact E.
Qed.

(** X10: the check loop of lines 215-227 stops on the assertion exactly
    when the computed norm of some normal is a NaN; normals of any other
    magnitude, however far from 1, go through. *)
Theorem X10_check_loop_aborts_iff_nan normals unoriented_normals :
  check_computed_normals std_sqrt normals unoriented_normals = None
  <-> exists n, n ∈ normals /\ std_sqrt (dot n n) = NaN.
Proof.
  split; [apply check_computed_normals_none|].
  intros (n & Hn & Hnan).
  destruct (check_computed_normals std_sqrt normals unoriented_normals) as [count|] eqn:E;
    [|reflexivity].
  exfalso. exact (check_computed_normals_some normals _ _ E n Hn Hnan).
Qed.

(** The status only ever moves to [EXIT_FAILURE]. *)
Lemma process_files_returns files :
  forall accumulated_fatal_err status,
    process_files files accumulated_fatal_err = Returns status ->
    status = accumulated_fatal_err \/ status = EXIT_FAILURE.
Proof.
  induction files as [|f files IH]; intros acc status; simpl.
  - intros [= <-]. auto.
  - assert (Hfail : process_files files EXIT_FAILURE = Returns status ->
                    status = acc \/ status = EXIT_FAILURE).
    { intros H. apply IH in H. tauto. }
    destruct (substr f (find_last_of f ".")) as [extension|]; [|discriminate].
    destruct (String.eqb extension ".xyz" || String.eqb extension ".XYZ"); [|exact Hfail].
    destruct (surface_reconstruction_read_xyz f) as [points|]; [|exact Hfail].
    destruct (to_int (Z.of_nat (length points)) =? 0); [exact Hfail|].
    destruct (check_computed_normals std_sqrt _ 0) as [count|]; [|discriminate].
    destruct (0 <? count); [exact Hfail | apply IH].
Qed.

Lemma check_counts_unoriented points count :
  Z.of_nat (length (compute_normals points)) < 2 ^ 31 ->
  check_computed_normals std_sqrt (compute_normals points) 0 = Some count ->
  count = count_unoriented (compute_normals points).
Proof.
  intros Hbound Hcount.
  pose proof (count_unoriented_range (compute_normals points)) as Hr.
  apply check_computed_normals_count in Hcount; lia.
Qed.

Lemma to_int_succ a : to_int (to_int a + 1) = to_int (a + 1).
Proof.
  unfold to_int. f_equal.
  replace ((a + 2 ^ 31) mod 2 ^ 32 - 2 ^ 31 + 1 + 2 ^ 31)
    with ((a + 2 ^ 31) mod 2 ^ 32 + 1) by lia.
  rewrite Zplus_mod_idemp_l. f_equal. lia.
Qed.

(** The count of the check loop, whatever the number of normals: the
    number of unoriented normals, wrapped to an [int]. *)
Lemma check_computed_normals_wraps normals :
  (forall n, n ∈ normals -> std_sqrt (dot n n) <> NaN) ->
  forall a,
    check_computed_normals std_sqrt normals (to_int a)
    = Some (to_int (a + count_unoriented normals)).
Proof.
  induction normals as [|n normals IH]; intros Hnan a.
  - simpl. unfold count_unoriented. simpl. rewrite Z.add_0_r. reflexivity.
  - assert (Hrest : forall n', n' ∈ normals -> std_sqrt (dot n' n') <> NaN).
    { intros n' Hn'. apply Hnan. apply elem_of_cons. auto. }
    simpl. rewrite count_unoriented_cons.
    destruct (unit_vector_assertion (std_sqrt (dot n n))) eqn:E.
    + destruct (is_oriented n).
      * rewrite (IH Hrest). reflexivity.
      * rewrite to_int_succ, (IH Hrest), Z.add_assoc. reflexivity.
    + exfalso. apply (Hnan n); [apply elem_of_cons; auto|].
      apply unit_vector_assertion_fails_iff_nan. exact E.
Qed.

(** A file whose normals are all unoriented, [2^31] of them: the counter
    ends at [-2^31] and nothing is held against the file. *)
Lemma overflowing_count_passes prog input_filename points :
  has_xyz_extension input_filename = true ->
  surface_reconstruction_read_xyz input_filename = Some points ->
  to_int (Z.of_nat (length points)) <> 0 ->
  (forall n, n ∈ compute_normals points -> std_sqrt (dot n n) <> NaN) ->
  count_unoriented (compute_normals points) = 2 ^ 31 ->
  check_computed_normals std_sqrt (compute_normals points) 0 = Some (- 2 ^ 31)
  /\ main [prog; input_filename] = Returns EXIT_SUCCESS.
Proof.
  intros Hext Hread Hsize Hnan Hcount.
  assert (Hcheck : check_computed_normals std_sqrt (compute_normals points) 0
                   = Some (- 2 ^ 31)).
  { change 0 with (to_int 0) at 1.
    rewrite (check_computed_normals_wraps _ Hnan 0), Z.add_0_l, Hcount. reflexivity. }
  split; [exact Hcheck|].
  unfold Driver.main, has_xyz_extension in *. simpl.
  destruct (substr input_filename (find_last_of input_filename ".")) as [extension|];
    [|discriminate].
  rewrite Hext, Hread.
  destruct (Z.eqb_spec (to_int (Z.of_nat (length points))) 0) as [E|_]; [contradiction|].
  unfold compute_normals in Hcheck |- *. rewrite Hcheck. reflexivity.
Qed.

(** What the loop does with one file, by whether the file is accepted. *)
Lemma process_files_step input_filename rest accumulated_fatal_err :
  countable input_filename ->
  (accepted input_filename
   /\ process_files (input_filename :: rest) accumulated_fatal_err
      = process_files rest accumulated_fatal_err)
  \/ (~ accepted input_filename
      /\ (process_files (input_filename :: rest) accumulated_fatal_err
          = process_files rest EXIT_FAILURE
          \/ exists why,
              process_files (input_filename :: rest) accumulated_fatal_err
              = Terminates why)).
Proof.
  intros Hbound. unfold Driver.countable in Hbound.
  unfold Driver.accepted, has_xyz_extension. simpl.
  destruct (substr input_filename (find_last_of input_filename ".")) as [extension|].
  2: { right. split; [intros [H _]; discriminate | right; eauto]. }
  destruct (String.eqb extension ".xyz" || String.eqb extension ".XYZ").
  2: { right. split; [intros [H _]; discriminate | left; reflexivity]. }
  destruct (surface_reconstruction_read_xyz input_filename) as [points|].
  2: { right. split; [intros (_ & points & H & _); discriminate | left; reflexivity]. }
  specialize (Hbound points eq_refl).
  destruct (Z.eqb_spec (to_int (Z.of_nat (length points))) 0) as [E0|E0].
  { right. split; [|left; reflexivity].
    intros (_ & points' & [= <-] & Hsize & _). contradiction. }
  destruct (check_computed_normals std_sqrt (compute_normals points) 0)
    as [count|] eqn:Ecount.
  - pose proof (check_counts_unoriented _ _ Hbound Ecount) as Hc. subst count.
    destruct (Z.ltb_spec 0 (count_unoriented (compute_normals points))) as [Hpos|Hzero].
    + right. split; [|left; reflexivity].
      intros (_ & points' & [= <-] & _ & Hall).
      apply count_unoriented_pos in Hpos as (n & Hn & Hun).
      destruct (Hall n Hn) as [_ Hor]. congruence.
    + left. split; [|reflexivity].
      split; [reflexivity|]. exists points.
      split; [reflexivity|]. split; [assumption|].
      intros n Hn. split.
      * exact (check_computed_normals_some _ _ _ Ecount n Hn).
      * destruct (is_oriented n) eqn:Hor; [reflexivity|].
        exfalso. apply Z.le_ngt in Hzero. apply Hzero.
        apply count_unoriented_pos. eauto.
  - right. split; [|right; eauto].
    intros (_ & points' & [= <-] & _ & Hall).
    destruct (check_computed_normals_passes std_sqrt (compute_normals points)
                (fun n Hn => proj1 (Hall n Hn)) 0) as [count Hcount].
    congruence.
Qed.

(** A file with a normal left unoriented, in a run that returns, makes
    the status [EXIT_FAILURE]. *)
Lemma unoriented_normal_fails_run files :
  forall accumulated_fatal_err input_filename points n status,
    input_filename ∈ files ->
    has_xyz_extension input_filename = true ->
    surface_reconstruction_read_xyz input_filename = Some points ->
    Z.of_nat (length (compute_normals points)) < 2 ^ 31 ->
    n ∈ compute_normals points ->
    is_oriented n = false ->
    process_files files accumulated_fatal_err = Returns status ->
    status = EXIT_FAILURE.
Proof.
  induction files as [|f files IH];
    intros acc input_filename points n status Hin Hext Hread Hbound Hn Hun.
  - apply elem_of_nil in Hin. contradiction.
  - assert (Hfail : process_files files EXIT_FAILURE = Returns status ->
                    status = EXIT_FAILURE).
    { intros H. apply process_files_returns in H. tauto. }
    assert (Hlater : input_filename ∈ files ->
                     forall acc', process_files files acc' = Returns status ->
                                  status = EXIT_FAILURE).
    { intros Hin' acc'. exact (IH acc' _ _ _ _ Hin' Hext Hread Hbound Hn Hun). }
    apply elem_of_cons in Hin as [<- | Hin].
    + unfold has_xyz_extension in Hext. simpl.
      destruct (substr input_filename (find_last_of input_filename ".")) as [extension|];
        [|discriminate].
      rewrite Hext, Hread.
      destruct (to_int (Z.of_nat (length points)) =? 0); [exact Hfail|].
      destruct (check_computed_normals std_sqrt (compute_normals points) 0)
        as [count|] eqn:Ecount; [|discriminate].
      pose proof (check_counts_unoriented _ _ Hbound Ecount) as Hc. subst count.
      replace (0 <? count_unoriented (compute_normals points)) with true; [exact Hfail|].
      symmetry. apply Z.ltb_lt. apply count_unoriented_pos. eauto.
    + simpl.
      destruct (substr f (find_last_of f ".")) as [extension|]; [|discriminate].
      destruct (String.eqb extension ".xyz" || String.eqb extension ".XYZ"); [|exact Hfail].
      destruct (surface_reconstruction_read_xyz f) as [points'|]; [|exact Hfail].
      destruct (to_int (Z.of_nat (length points')) =? 0); [exact Hfail|].
      destruct (check_computed_normals std_sqrt _ 0) as [count|]; [|discriminate].
      destruct (0 <? count); [exact Hfail | apply Hlater, Hin].
Qed.

(** X11: what can end the run before [main] returns.  The exception of
    [substr] needs a file name without a dot among the arguments, and a
    name without a dot ends the run as soon as the loop reaches it with
    that exception; the assertion needs a file that was read and a normal
    computed for it whose norm is a NaN. *)
Theorem X11_causes_of_termination files accumulated_fatal_err :
  (process_files files accumulated_fatal_err = Terminates Uncaught_out_of_range ->
   exists f, f ∈ files /\ ~ In "."%char (list_ascii_of_string f))
  /\ (process_files files accumulated_fatal_err = Terminates Assertion_failed ->
      exists f points n,
        f ∈ files
        /\ surface_reconstruction_read_xyz f = Some points
        /\ n ∈ compute_normals points
        /\ std_sqrt (dot n n) = NaN)
  /\ (forall f rest,
        files = f :: rest ->
        ~ In "."%char (list_ascii_of_string f) ->
        process_files files accumulated_fatal_err = Terminates Uncaught_out_of_range).
Proof.
  split; [|split].
  - revert accumulated_fatal_err.
    induction files as [|f files IH]; intros acc; [discriminate|].
    assert (Hmore : forall acc', process_files files acc' = Terminates Uncaught_out_of_range ->
                                 exists f0, f0 ∈ f :: files
                                            /\ ~ In "."%char (list_ascii_of_string f0)).
    { intros acc' H. apply IH in H as (f0 & Hin & Hno).
      exists f0. split; [apply elem_of_cons; auto | exact Hno]. }
    simpl.
    destruct (substr f (find_last_of f ".")) as [extension|] eqn:Eext.
    2: { intros _. exists f. split; [apply elem_of_cons; auto|].
         apply substr_find_last_of_none. exact Eext. }
    destruct (String.eqb extension ".xyz" || String.eqb extension ".XYZ");
      [|apply Hmore].
    destruct (surface_reconstruction_read_xyz f) as [points|]; [|apply Hmore].
    destruct (to_int (Z.of_nat (length points)) =? 0); [apply Hmore|].
    destruct (check_computed_normals std_sqrt _ 0) as [count|]; [|discriminate].
    destruct (0 <? count); apply Hmore.
  - revert accumulated_fatal_err.
    induction files as [|f files IH]; intros acc; [discriminate|].
    assert (Hmore : forall acc', process_files files acc' = Terminates Assertion_failed ->
                                 exists f0 points n,
                                   f0 ∈ f :: files
                                   /\ surface_reconstruction_read_xyz f0 = Some points
                                   /\ n ∈ compute_normals points
                                   /\ std_sqrt (dot n n) = NaN).
    { intros acc' H. apply IH in H as (f0 & points & n & Hin & Hrest).
      exists f0, points, n. split; [apply elem_of_cons; auto | exact Hrest]. }
    simpl.
    destruct (substr f (find_last_of f ".")) as [extension|]; [|discriminate].
    destruct (String.eqb extension ".xyz" || String.eqb extension ".XYZ");
      [|apply Hmore].
    destruct (surface_reconstruction_read_xyz f) as [points|] eqn:Eread; [|apply Hmore].
    destruct (to_int (Z.of_nat (length points)) =? 0); [apply Hmore|].
    destruct (check_computed_normals std_sqrt _ 0) as [count|] eqn:Echeck.
    + destruct (0 <? count); apply Hmore.
    + intros _. apply check_computed_normals_none in Echeck.
      destruct Echeck as (n & Hn & Hnan).
      exists f, points, n. split; [apply elem_of_cons; auto|]. auto.
  - intros f rest -> Hno. simpl.
    apply substr_find_last_of_none in Hno. rewrite Hno. reflexivity.
Qed.

(** X12: the exit status.  When [main] returns, it returns
    [EXIT_SUCCESS] or [EXIT_FAILURE]; and once the loop holds
    [EXIT_FAILURE], no later file brings the status back. *)
Theorem X12_status_only_moves_to_failure :
  (forall argv status,
      main argv = Returns status -> status = EXIT_SUCCESS \/ status = EXIT_FAILURE)
  /\ (forall files status,
        process_files files EXIT_FAILURE = Returns status -> status = EXIT_FAILURE).
Proof.
  split.
  - intros argv status. unfold Driver.main.
    destruct (Z.of_nat (length argv) - 1 =? 0).
    + intros [= <-]. auto.
    + apply process_files_returns.
  - intros files status H. apply process_files_returns in H. tauto.
Qed.

Lemma process_files_succeeds_iff files :
  (forall f, f ∈ files -> countable f) ->
  process_files files EXIT_SUCCESS = Returns EXIT_SUCCESS
  <-> forall f, f ∈ files -> accepted f.
Proof.
  induction files as [|f files IH]; intros Hbound.
  - split; [|reflexivity]. intros _ f Hf. apply elem_of_nil in Hf. contradiction.
  - assert (Hbound' : forall f0, f0 ∈ files -> countable f0).
    { intros f0 Hf0. apply Hbound. apply elem_of_cons. auto. }
    destruct (process_files_step f files EXIT_SUCCESS
                (Hbound f ltac:(apply elem_of_cons; auto)))
      as [[Hacc ->] | [Hrej Hstep]].
    + rewrite (IH Hbound'). split.
      * intros Hall f0 Hf0. apply elem_of_cons in Hf0 as [-> | Hf0]; auto.
      * intros Hall f0 Hf0. apply Hall. apply elem_of_cons. auto.
    + split.
      * intros Hret. exfalso.
        destruct Hstep as [Hstep | [why Hstep]]; rewrite Hstep in Hret; [|discriminate].
        apply process_files_returns in Hret. destruct Hret; discriminate.
      * intros Hall. exfalso. apply Hrej, Hall. apply elem_of_cons. auto.
Qed.

(** X13: as long as the normals computed for each file are fewer than
    [2^31], so that the [int] counter of the check loop cannot wrap,
    [main] returns [EXIT_SUCCESS] exactly when it is given at least one
    file and every file is accepted: it has an [.xyz] or [.XYZ]
    extension, is readable, has a non-zero vertex count, and its normals
    all pass the assertion and are all oriented. *)
Theorem X13_main_succeeds_iff_every_file_accepted prog files :
  (forall f, f ∈ files -> countable f) ->
  main (prog :: files) = Returns EXIT_SUCCESS
  <-> files <> [] /\ forall f, f ∈ files -> accepted f.
Proof.
  intros Hbound. unfold Driver.main.
  destruct files as [|f files].
  - simpl. split; [discriminate | intros [H _]; congruence].
  - destruct (Z.eqb_spec (Z.of_nat (length (prog :: f :: files)) - 1) 0) as [E|_];
      [cbn [length] in E; lia|].
    simpl tail. rewrite (process_files_succeeds_iff _ Hbound).
    split; [intros H; split; [discriminate | exact H] | intros [_ H]; exact H].
Qed.

End Main.

Lemma sample_file_accepted :
  accepted unit SampleRun.read_xyz SampleRun.estimate_pca SampleRun.estimate_jet
    SampleRun.orient Finite "cloud.xyz".
Proof.
  split; [reflexivity|].
  exists [tt]. split; [reflexivity|]. split; [discriminate|].
  intros n Hn.
  repeat (apply elem_of_cons in Hn as [-> | Hn]; [split; [discriminate | reflexivity]|]).
  apply elem_of_nil in Hn. contradiction.
Defined.

Lemma X11_witness :
  SampleRun.process_files ["points"; "cloud.xyz"]%string EXIT_SUCCESS
  = Terminates Uncaught_out_of_range.
Proof.
  apply (X11_causes_of_termination unit SampleRun.read_xyz SampleRun.estimate_pca
           SampleRun.estimate_jet SampleRun.orient Finite
           ["points"; "cloud.xyz"]%string EXIT_SUCCESS)
    with (f := "points"%string) (rest := ["cloud.xyz"%string]).
  - reflexivity.
  - simpl. intros H. repeat destruct H as [H | H]; try discriminate H. exact H.
Defined.

Lemma X12_witness :
  exists status,
    SampleRun.process_files ["cloud.xyz"; "cloud.XYZ"]%string EXIT_FAILURE = Returns status
    /\ status = EXIT_FAILURE.
Proof.
  exists EXIT_FAILURE. split; [reflexivity|].
  apply (proj2 (X12_status_only_moves_to_failure unit SampleRun.read_xyz
                  SampleRun.estimate_pca SampleRun.estimate_jet SampleRun.orient Finite)
           ["cloud.xyz"; "cloud.XYZ"]%string EXIT_FAILURE).
  reflexivity.
Defined.

Lemma sample_file_countable f :
  countable unit SampleRun.read_xyz SampleRun.estimate_pca SampleRun.estimate_jet
    SampleRun.orient f.
Proof. intros points _. reflexivity. Defined.

Lemma X13_witness :
  SampleRun.main ["normal_estimation_test"; "cloud.xyz"]%string = Returns EXIT_SUCCESS.
Proof.
  apply (X13_main_succeeds_iff_every_file_accepted unit SampleRun.read_xyz
           SampleRun.estimate_pca SampleRun.estimate_jet SampleRun.orient Finite
           "normal_estimation_test" ["cloud.xyz"]%string
           (fun f _ => sample_file_countable f)).
  split; [discriminate|].
  intros f Hf. apply elem_of_cons in Hf as [-> | Hf]; [apply sample_file_accepted|].
  apply elem_of_nil in Hf. contradiction.
Defined.

End DriverExtra.

(** ** The propagator on its own graph *)

Module PropagatorFacts.

Import Driver Orient OrientFacts.

Lemma mem_In v visited : mem v visited = true <-> In v visited.
Proof. rewrite mem_true. apply list_elem_of_In. Qed.

Lemma visit_cons visited m walk : visit visited (m :: walk) = visit (reached m :: visited) walk.
Proof. reflexivity. Qed.

Lemma visit_app visited w1 w2 : visit visited (w1 ++ w2) = visit (visit visited w1) w2.
Proof. unfold visit. apply fold_left_app. Qed.

Lemma visit_keeps walk : forall visited x, In x visited -> In x (visit visited walk).
Proof.
  induction walk as [|m walk IH]; intros visited x Hx; [exact Hx|].
  rewrite visit_cons. apply IH. right. exact Hx.
Qed.

Lemma visit_inv walk :
  forall visited x,
    In x (visit visited walk) ->
    In x visited \/ exists m, In m walk /\ reached m = x.
Proof.
  induction walk as [|m walk IH]; intros visited x Hx; [left; exact Hx|].
  rewrite visit_cons in Hx. apply IH in Hx as [[<- | Hx] | (m' & Hm' & Hr)].
  - right. exists m. split; [left|]; reflexivity.
  - left. exact Hx.
  - right. exists m'. split; [right|]; assumption.
Qed.

Lemma is_walk_app n w1 :
  forall visited w2,
    is_walk n visited (w1 ++ w2)
    = is_walk n visited w1 && is_walk n (visit visited w1) w2.
Proof.
  induction w1 as [|m w1 IH]; intros visited w2; [reflexivity|].
  simpl is_walk at 1 2. rewrite visit_cons, IH.
  rewrite !andb_assoc. reflexivity.
Qed.

(** A list without repetition of [n] or more numbers below [n] holds them all. *)
Lemma all_visited n (visited : list nat) :
  List.NoDup visited ->
  (forall x, In x visited -> (x < n)%nat) ->
  (n <= length visited)%nat ->
  forall v, (v < n)%nat -> In v visited.
Proof.
  intros Hnd Hlt Hlen v Hv.
  apply (List.NoDup_length_incl Hnd (l' := seq 0 n)).
  - rewrite length_seq. exact Hlen.
  - intros x Hx. apply in_seq. specialize (Hlt x Hx). lia.
  - apply in_seq. lia.
Qed.

Section Propagator.

Variable nearest : list (list nat).
Variable normals : list Orientable_normal.

#[local] Abbreviation n := (length normals).
#[local] Abbreviation frontier := (frontier nearest normals).
#[local] Abbreviation lightest_edge := (lightest_edge nearest normals).
#[local] Abbreviation grow := (grow nearest normals).
#[local] Abbreviation components := (components nearest normals).
#[local] Abbreviation adjacent := (adjacent nearest).
#[local] Abbreviation closed := (closed nearest normals).

Lemma lightest_in edges : forall best, In (lightest normals best edges) (best :: edges).
Proof.
  induction edges as [|e edges IH]; intros best; simpl; [auto|].
  destruct (IH (if Qlt_b (weight normals e) (weight normals best) then e else best))
    as [H | H]; [|auto].
  destruct (Qlt_b (weight normals e) (weight normals best)); auto.
Qed.

Lemma in_frontier visited u v :
  In (u, v) (frontier visited)
  <-> (u < n)%nat /\ mem u visited = true
      /\ (v < n)%nat /\ adjacent u v = true /\ mem v visited = false.
Proof.
  unfold Orient.frontier, vertices. rewrite in_flat_map. split.
  - intros (u' & Hu' & Hin).
    destruct (mem u' visited) eqn:Hmem; [|contradiction].
    apply in_map_iff in Hin as (v' & [= <- <-] & Hv').
    apply filter_In in Hv' as [Hv' Hadj].
    apply andb_true_iff in Hadj as [Hadj Hfresh].
    apply negb_true_iff in Hfresh.
    apply in_seq in Hu'. apply in_seq in Hv'.
    repeat split; try assumption; lia.
  - intros (Hu & Hmem & Hv & Hadj & Hfresh).
    exists u. split; [apply in_seq; lia|].
    rewrite Hmem. apply in_map. apply filter_In.
    split; [apply in_seq; lia|].
    rewrite Hadj, Hfresh. reflexivity.
Qed.

Lemma lightest_edge_some visited u v :
  lightest_edge visited = Some (u, v) -> In (u, v) (frontier visited).
Proof.
  unfold Orient.lightest_edge.
  destruct (frontier visited) as [|e rest]; [discriminate|].
  intros [= <-]. apply lightest_in.
Qed.

Lemma lightest_edge_none visited :
  lightest_edge visited = None -> frontier visited = [].
Proof.
  unfold Orient.lightest_edge.
  destruct (frontier visited); [reflexivity | discriminate].
Qed.

(** The edges of the tree come out as a walk. *)
Lemma is_walk_grow fuel : forall visited, is_walk n visited (grow fuel visited) = true.
Proof.
  induction fuel as [|fuel IH]; intros visited; simpl; [reflexivity|].
  destruct (lightest_edge visited) as [[u v]|] eqn:E; [|reflexivity].
  apply lightest_edge_some, in_frontier in E as (_ & Hu & Hv & _ & Hfresh).
  simpl. rewrite Hu, Hfresh, IH.
  replace (v <? n)%nat with true by (symmetry; apply Nat.ltb_lt; exact Hv).
  reflexivity.
Qed.

Lemma is_walk_components fuel :
  forall visited, is_walk n visited (components fuel visited) = true.
Proof.
  induction fuel as [|fuel IH]; intros visited; simpl; [reflexivity|].
  destruct (next_reference normals visited) as [r|] eqn:E; [|reflexivity].
  apply find_some in E as [Hr Hfresh].
  apply in_seq in Hr.
  simpl. rewrite Hfresh.
  replace (r <? n)%nat with true by (symmetry; apply Nat.ltb_lt; lia).
  rewrite is_walk_app, is_walk_grow, IH. reflexivity.
Qed.

Lemma is_walk_spanning_walk reference :
  (reference < n)%nat ->
  is_walk n [] (spanning_walk nearest normals reference) = true.
Proof.
  intros Hr. unfold spanning_walk. simpl.
  replace (reference <? n)%nat with true by (symmetry; apply Nat.ltb_lt; exact Hr).
  rewrite is_walk_app, is_walk_grow, is_walk_components. reflexivity.
Qed.

(** The tree stops growing only when no edge leaves it. *)
Lemma grow_closed fuel :
  forall visited,
    List.NoDup visited ->
    (forall x, In x visited -> (x < n)%nat) ->
    (n <= fuel + length visited)%nat ->
    closed (visit visited (grow fuel visited)).
Proof.
  induction fuel as [|fuel IH]; intros visited Hnd Hlt Hlen.
  - intros u v _ _ Hv _. simpl. apply (all_visited n); assumption.
  - simpl. destruct (lightest_edge visited) as [[u v]|] eqn:E.
    + rewrite visit_cons. cbn [reached].
      apply lightest_edge_some, in_frontier in E as (_ & _ & Hv & _ & Hfresh).
      apply IH.
      * constructor; [|exact Hnd].
        intros Hin. apply mem_In in Hin. congruence.
      * intros x [<- | Hx]; [exact Hv | apply Hlt, Hx].
      * cbn [length]. lia.
    + apply lightest_edge_none in E.
      intros u v Hu Hin Hv Hadj. simpl.
      destruct (mem v visited) eqn:Hmem; [apply mem_In, Hmem|].
      exfalso.
      assert (Hf : In (u, v) (frontier visited)).
      { apply in_frontier. repeat split; try assumption. apply mem_In, Hin. }
      rewrite E in Hf. contradiction.
Qed.

Lemma reachable_in_closed reference visited v :
  closed visited ->
  (reference < n)%nat ->
  In reference visited ->
  reachable nearest normals reference v ->
  (v < n)%nat /\ In v visited.
Proof.
  intros Hclosed Hr Hin Hreach.
  induction Hreach as [|u v _ [Hu IH] Hv Hadj]; [auto|].
  split; [exact Hv|]. exact (Hclosed u v Hu IH Hv Hadj).
Qed.

(** The walk reaches every vertex that the graph connects to the reference. *)
Lemma spanning_walk_reaches reference v :
  (reference < n)%nat ->
  reachable nearest normals reference v ->
  exists m, m ∈ spanning_walk nearest normals reference /\ reached m = v.
Proof.
  intros Hr Hreach.
  assert (Hclosed : closed (visit [reference] (grow n [reference]))).
  { apply grow_closed.
    - constructor; [intros [] | constructor].
    - intros x [<- | []]. exact Hr.
    - lia. }
  assert (Hstart : In reference (visit [reference] (grow n [reference])))
    by (apply visit_keeps; left; reflexivity).
  destruct (reachable_in_closed reference _ v Hclosed Hr Hstart Hreach) as [_ Hv].
  unfold spanning_walk.
  apply visit_inv in Hv as [[<- | []] | (m & Hm & Hrm)].
  - exists (Start reference). split; [apply elem_of_cons; auto | reflexivity].
  - exists m. split; [|exact Hrm].
    apply elem_of_cons. right. apply elem_of_app. left.
    apply list_elem_of_In. exact Hm.
Qed.

End Propagator.

Lemma length_fold_propagate walk :
  forall normals, length (fold_left propagate walk normals) = length normals.
Proof.
  induction walk as [|m walk IH]; intros normals; simpl; [reflexivity|].
  rewrite IH. apply length_propagate.
Qed.


Lemma count_unoriented_all (u : Orientable_normal) {A} (points : list A) :
  is_oriented u = false ->
  count_unoriented (map (fun _ => u) points) = Z.of_nat (length points).
Proof.
  intros Hu. induction points as [|p points IH].
  - reflexivity.
  - change (map (fun _ => u) (p :: points)) with (u :: map (fun _ => u) points).
    rewrite DriverFacts.count_unoriented_cons, Hu, IH. cbn [length]. lia.
Qed.

(** The stand-in with [2^31] points, for any number of points that is [2^31]. *)
Lemma many_points_unoriented (N : nat) :
  Z.of_nat N = 2 ^ 31 ->
  to_int (Z.of_nat (length (repeat tt N))) <> 0
  /\ count_unoriented
       (compute_normals unit SampleRun.estimate_pca SampleRun.estimate_upward
          SampleRun.leave_unoriented (repeat tt N))
     = 2 ^ 31.
Proof.
  intros HN. split.
  - rewrite repeat_length, HN. discriminate.
  - unfold compute_normals, SampleRun.leave_unoriented, SampleRun.estimate_upward.
    rewrite (count_unoriented_all SampleRun.upward (repeat tt N) eq_refl).
    rewrite repeat_length. exact HN.
Qed.


End PropagatorFacts.
